(** * lnb-node: the sensor thread ([node/sensor.py])

    A shallow embedding of [Sensor.get_GPS_Fix], [Sensor.lightning],
    [Sensor.timestamp] and [Sensor.collect], and the properties of the
    acquisition-and-classification pipeline proved about them.

    The hardware collaborators (GPS receiver, AS3935 detector, interrupt pin,
    indicator LED, real-time clock) are simulated by a [world]: it holds the
    readings the hardware is going to deliver, the registers written so far and
    a log of every command the code issues.  The Python code is written in a
    small state-and-exception monad over that world. *)

From Stdlib Require Import ZArith List Bool Lia String Ascii.
From Stdlib Require Import DecimalString DecimalZ.
Import ListNotations.
Local Open Scope Z_scope.

(** ** Data model *)

(** [time.struct_time]: the nine calendar fields. *)
Record struct_time := mk_struct_time {
  tm_year : Z; tm_mon : Z; tm_mday : Z;
  tm_hour : Z; tm_min : Z; tm_sec : Z;
  tm_wday : Z; tm_yday : Z; tm_isdst : Z
}.

(** The three attributes of the AS3935 driver that [lightning] reads. *)
Record readout := mk_readout {
  interrupt_register : Z;
  distance_to_storm : Z;
  lightning_energy : Z
}.

(** Interrupt-cause codes of the AS3935 driver ([self.as3935.NOISE], ...). *)
Definition NOISE : Z := 1.
Definition DISTURBER : Z := 4.
Definition LIGHTNING : Z := 8.

(** One look at the interrupt pin: low, or high with the detector registers
    that stand behind the interrupt. *)
Inductive tick :=
| PinLow
| PinHigh (r : readout).

(** Text printed on the console. *)
Inductive message :=
| MsgWaitingForFix
| MsgGotFix
| MsgNoise
| MsgDisturber (i d : Z)
| MsgLightning (d : Z)
| MsgCreated (packet : string).

(** Commands issued to the collaborators, as they appear in the log. *)
Inductive action :=
| GpsEnable (b : bool)
| GpsOpen
| GpsCommand (c : string)
| GpsUpdate (fix_ : bool) (year : Z)
| RtcWrite (t : struct_time)
| TimeRead (t : Z)
| ReadPin (b : bool)
| ReadInterruptRegister (v : Z)
| ReadDistance (d : Z)
| ReadEnergy (e : Z)
| ClearStatistics
| SetLed (b : bool)
| Sleep (ms : Z)
| Print (m : message).

Inductive exn := KeyboardInterrupt.

(** Outcome of running a piece of code on a simulated world: a value, a raised
    exception, or [Blocked] when the simulated readings ran out while the code
    was still waiting for the hardware. *)
Inductive res (A : Type) :=
| Val (a : A)
| Raise (e : exn)
| Blocked.
Arguments Val {A} a.
Arguments Raise {A} e.
Arguments Blocked {A}.

Inductive ctl := Continue | Break.

(** Numbers used for coordinates: the Python literal [-1] and [str()]. *)
Class Coordinate (A : Type) := {
  coord_of_int : Z -> A;
  coord_str : A -> string
}.

Section Node.

Context {coord : Type} {coord_num : Coordinate coord}.

(** The real-time clock is hardware: [clock st n] is the epoch time it reports
    [n] operations after its calendar was last set to [st]; [localtime] is the
    runtime's conversion of epoch seconds to calendar fields. *)
Variable clock : struct_time -> nat -> Z.
Variable localtime : Z -> struct_time.

(** Attributes of the [adafruit_gps.GPS] object after an [update()]. *)
Record gps_state := mk_gps_state {
  has_fix : bool;
  timestamp_utc : struct_time;
  latitude : coord;
  longitude : coord
}.

Record world := mk_world {
  gps_feed : list gps_state;   (* what the coming [gps_module.update()] calls observe *)
  gps_module : gps_state;      (* attributes of [gps_module] *)
  irq_feed : list tick;        (* what the coming reads of the interrupt pin observe *)
  as3935 : readout;            (* detector registers *)
  rtc_datetime : struct_time;  (* value last written to [self.clock.datetime] *)
  rtc_age : nat;               (* operations since that write *)
  steps : nat;                 (* operations executed so far: logical time *)
  sigint : option nat;         (* the step at which the operator's Ctrl-C arrives *)
  check_y : Z;                 (* local of [get_GPS_Fix] *)
  distance : Z;                (* local of [lightning] *)
  i_count : Z;                 (* local [i] of [lightning] *)
  self_gps_lat : coord;        (* [self.gps_lat] *)
  self_gps_long : coord;       (* [self.gps_long] *)
  log : list action            (* commands issued, newest first *)
}.

(** *** World updates *)

Definition record (a : action) (w : world) : world :=
  mk_world (gps_feed w) (gps_module w) (irq_feed w) (as3935 w)
           (rtc_datetime w) (S (rtc_age w)) (S (steps w)) (sigint w)
           (check_y w) (distance w) (i_count w)
           (self_gps_lat w) (self_gps_long w) (a :: log w).

Definition deliver (w : world) : world :=
  mk_world (gps_feed w) (gps_module w) (irq_feed w) (as3935 w)
           (rtc_datetime w) (rtc_age w) (steps w) None
           (check_y w) (distance w) (i_count w)
           (self_gps_lat w) (self_gps_long w) (log w).

Definition with_gps (g : gps_state) (f : list gps_state) (w : world) : world :=
  mk_world f g (irq_feed w) (as3935 w)
           (rtc_datetime w) (rtc_age w) (steps w) (sigint w)
           (check_y w) (distance w) (i_count w)
           (self_gps_lat w) (self_gps_long w) (log w).

Definition with_irq_feed (f : list tick) (w : world) : world :=
  mk_world (gps_feed w) (gps_module w) f (as3935 w)
           (rtc_datetime w) (rtc_age w) (steps w) (sigint w)
           (check_y w) (distance w) (i_count w)
           (self_gps_lat w) (self_gps_long w) (log w).

Definition with_as3935 (r : readout) (w : world) : world :=
  mk_world (gps_feed w) (gps_module w) (irq_feed w) r
           (rtc_datetime w) (rtc_age w) (steps w) (sigint w)
           (check_y w) (distance w) (i_count w)
           (self_gps_lat w) (self_gps_long w) (log w).

Definition with_rtc (t : struct_time) (w : world) : world :=
  mk_world (gps_feed w) (gps_module w) (irq_feed w) (as3935 w)
           t 0%nat (steps w) (sigint w)
           (check_y w) (distance w) (i_count w)
           (self_gps_lat w) (self_gps_long w) (log w).

Definition with_check_y (y : Z) (w : world) : world :=
  mk_world (gps_feed w) (gps_module w) (irq_feed w) (as3935 w)
           (rtc_datetime w) (rtc_age w) (steps w) (sigint w)
           y (distance w) (i_count w)
           (self_gps_lat w) (self_gps_long w) (log w).

Definition with_distance (d : Z) (w : world) : world :=
  mk_world (gps_feed w) (gps_module w) (irq_feed w) (as3935 w)
           (rtc_datetime w) (rtc_age w) (steps w) (sigint w)
           (check_y w) d (i_count w)
           (self_gps_lat w) (self_gps_long w) (log w).

Definition with_i (n : Z) (w : world) : world :=
  mk_world (gps_feed w) (gps_module w) (irq_feed w) (as3935 w)
           (rtc_datetime w) (rtc_age w) (steps w) (sigint w)
           (check_y w) (distance w) n
           (self_gps_lat w) (self_gps_long w) (log w).

(** The commands in the order they were issued. *)
Definition trace (w : world) : list action := rev (log w).

(** ** The monad *)

Definition M (A : Type) : Type := world -> res A * world.

Definition ret {A} (a : A) : M A := fun w => (Val a, w).

Definition bind {A B} (m : M A) (k : A -> M B) : M B := fun w =>
  match m w with
  | (Val a, w') => k a w'
  | (Raise e, w') => (Raise e, w')
  | (Blocked, w') => (Blocked, w')
  end.

#[local] Notation "x <- c1 ;; c2" := (bind c1 (fun x => c2))
  (at level 61, c1 at next level, right associativity).
#[local] Notation "c1 ;; c2" := (bind c1 (fun _ => c2))
  (at level 61, right associativity).

Definition get {A} (f : world -> A) : M A := fun w => (Val (f w), w).
Definition modify (f : world -> world) : M unit := fun w => (Val tt, f w).

(** Every operation is a point where a pending Ctrl-C is turned into
    [KeyboardInterrupt]; it is delivered once. *)
Definition interruptible {A} (m : M A) : M A := fun w =>
  match sigint w with
  | Some n => if Nat.eqb n (steps w) then (Raise KeyboardInterrupt, deliver w) else m w
  | None => m w
  end.

Definition op (a : action) : M unit := interruptible (modify (record a)).

(** [try: body except KeyboardInterrupt: handler]. *)
Definition try_except {A} (body : M A) (handler : M A) : M A := fun w =>
  match body w with
  | (Raise KeyboardInterrupt, w') => handler w'
  | r => r
  end.

(** [while cond: body], where [body] says whether it left through [break].
    A simulation is a finite list of readings, so the loop is unrolled [fuel]
    times; the callers supply more fuel than there are readings. *)
Fixpoint while_ (fuel : nat) (cond : M bool) (body : M ctl) : M unit :=
  match fuel with
  | O => fun w => (Blocked, w)
  | S n =>
      c <- cond ;;
      if c then
        k <- body ;;
        match k with
        | Break => ret tt
        | Continue => while_ n cond body
        end
      else ret tt
  end.

(** ** Collaborators *)

(** [gps_module.update()]: the receiver state moves to the next poll. *)
Definition gps_update : M unit := interruptible (fun w =>
  match gps_feed w with
  | [] => (Blocked, w)
  | g :: f =>
      (Val tt, record (GpsUpdate (has_fix g) (tm_year (timestamp_utc g))) (with_gps g f w))
  end).

(** [self.as3935_interrupt_pin.value] *)
Definition pin_value : M bool := interruptible (fun w =>
  match irq_feed w with
  | [] => (Blocked, w)
  | PinLow :: f => (Val false, record (ReadPin false) (with_irq_feed f w))
  | PinHigh r :: f => (Val true, record (ReadPin true) (with_as3935 r (with_irq_feed f w)))
  end).

Definition read_interrupt_register : M Z := interruptible (fun w =>
  let v := interrupt_register (as3935 w) in (Val v, record (ReadInterruptRegister v) w)).

Definition read_distance_to_storm : M Z := interruptible (fun w =>
  let d := distance_to_storm (as3935 w) in (Val d, record (ReadDistance d) w)).

Definition read_lightning_energy : M Z := interruptible (fun w =>
  let e := lightning_energy (as3935 w) in (Val e, record (ReadEnergy e) w)).

(** [self.clock.datetime = t] *)
Definition rtc_write (t : struct_time) : M unit := interruptible (fun w =>
  (Val tt, record (RtcWrite t) (with_rtc t w))).

(** [time.time()]: epoch seconds of the real-time clock. *)
Definition time_time : M Z := interruptible (fun w =>
  let t := clock (rtc_datetime w) (rtc_age w) in (Val t, record (TimeRead t) w)).

(** ** [Sensor.get_GPS_Fix] *)

Definition SENTINEL_YEAR : Z := 2020.

Definition gps_fuel (w : world) : nat := S (List.length (gps_feed w)).

(** [not gps_module.has_fix or check_y == 2020] *)
Definition gps_cond : M bool :=
  fix_ <- get (fun w => has_fix (gps_module w)) ;;
  y <- get check_y ;;
  ret (negb fix_ || (y =? SENTINEL_YEAR)).

(** One poll cycle: the body of the [while]. *)
Definition gps_cycle : M ctl :=
  op (Print MsgWaitingForFix) ;;
  gps_update ;;
  y <- get (fun w => tm_year (timestamp_utc (gps_module w))) ;;
  modify (with_check_y y) ;;
  op (Sleep 1000) ;;
  ret Continue.

Definition gps_wait : M unit :=
  fuel <- get gps_fuel ;;
  while_ fuel gps_cond gps_cycle.

Definition get_GPS_Fix (GPS : bool) : M (coord * coord) :=
  if GPS then
    op (GpsEnable true) ;;
    op GpsOpen ;;
    op (GpsCommand "PMTK314,0,1,0,1,0,0,0,0,0,0,0,0,0,0,0,0,0,0,0") ;;
    op (GpsCommand "PMTK220,1000") ;;
    modify (with_check_y 2020) ;;
    gps_wait ;;
    op (Print MsgGotFix) ;;
    gps_lat <- get (fun w => latitude (gps_module w)) ;;
    gps_long <- get (fun w => longitude (gps_module w)) ;;
    t <- get (fun w => timestamp_utc (gps_module w)) ;;
    rtc_write (mk_struct_time (tm_year t) (tm_mon t) (tm_mday t)
                              (tm_hour t) (tm_min t) (tm_sec t)
                              (tm_wday t) (tm_yday t) (-1)) ;;
    ret (gps_lat, gps_long)
  else
    ret (coord_of_int (-1), coord_of_int (-1)).

(** ** [Sensor.lightning] *)

Definition irq_fuel (w : world) : nat := S (List.length (irq_feed w)).

(** One pass of the [while True:] loop. *)
Definition lightning_pass (LS : bool) : M ctl :=
  pin <- pin_value ;;
  if pin then
    if LS then
      interrupt_value <- read_interrupt_register ;;
      d <- read_distance_to_storm ;;
      modify (with_distance d) ;;
      intensity <- read_lightning_energy ;;
      k <- (if interrupt_value =? NOISE then
              op (Print MsgNoise) ;;
              op ClearStatistics ;;
              ret Continue
            else if interrupt_value =? DISTURBER then
              i <- get i_count ;;
              modify (with_i (i + 1)) ;;
              op (Print (MsgDisturber (i + 1) d)) ;;
              op ClearStatistics ;;
              ret Break
            else if interrupt_value =? LIGHTNING then
              op (SetLed true) ;;
              op (Print (MsgLightning d)) ;;
              op ClearStatistics ;;
              ret Break
            else ret Continue) ;;
      match k with
      | Break => ret Break
      | Continue =>
          op (Sleep 500) ;;
          op (SetLed false) ;;
          ret Continue
      end
    else ret Break
  else ret Continue.

(** The [while True:] loop itself. *)
Definition lightning_loop (LS : bool) : M unit :=
  fuel <- get irq_fuel ;;
  while_ fuel (ret true) (lightning_pass LS).

(** What follows the initialisation of [distance] and [i]: the loop inside
    its [try], and the [return]. *)
Definition lightning_wait (LS : bool) : M Z :=
  try_except (lightning_loop LS) (ret tt) ;;
  get distance.

Definition lightning (LS : bool) : M Z :=
  modify (with_distance (-1)) ;;
  try_except (modify (with_i 0) ;; lightning_loop LS) (ret tt) ;;
  get distance.

(** ** [Sensor.timestamp] and [Sensor.collect] *)

(** [str()] of an integer. *)
Definition str_int (z : Z) : string := NilZero.string_of_int (Z.to_int z).

Fixpoint zeros (n : nat) : string :=
  match n with
  | O => EmptyString
  | S k => String "0" (zeros k)
  end.

(** ["%0<width>d" % z] *)
Definition zero_pad (width : nat) (z : Z) : string :=
  if z <? 0 then
    let digits := str_int (- z) in
    String "-" (zeros (width - 1 - String.length digits) ++ digits)
  else
    let digits := str_int z in
    zeros (width - String.length digits) ++ digits.

(** [dt.isoformat(sep="T")] of a datetime without microseconds or zone. *)
Definition isoformat (t : struct_time) : string :=
  (zero_pad 4 (tm_year t) ++ "-" ++ zero_pad 2 (tm_mon t) ++ "-" ++ zero_pad 2 (tm_mday t)
   ++ "T" ++
   zero_pad 2 (tm_hour t) ++ ":" ++ zero_pad 2 (tm_min t) ++ ":" ++ zero_pad 2 (tm_sec t))%string.

(** [datetime.now()] reads [time.time()] and converts it. *)
Definition timestamp : M string :=
  t <- time_time ;;
  ret (isoformat (localtime t)).

(** The five fields of a packet, before rendering. *)
Record packet_fields := mk_packet {
  p_timestamp : string;
  p_epoch : Z;
  p_lat : coord;
  p_long : coord;
  p_distance : Z
}.

(** [f"{t_stmp},{t_int},{self.gps_lat},{self.gps_long},{stk}"] *)
Definition render (p : packet_fields) : string :=
  (p_timestamp p ++ "," ++ str_int (p_epoch p) ++ "," ++ coord_str (p_lat p) ++ ","
   ++ coord_str (p_long p) ++ "," ++ str_int (p_distance p))%string.

Definition collect (LS : bool) : M string :=
  stk <- lightning LS ;;
  t_stmp <- timestamp ;;
  t_int <- time_time ;;
  lat <- get self_gps_lat ;;
  long <- get self_gps_long ;;
  let packet := render (mk_packet t_stmp t_int lat long stk) in
  op (Print (MsgCreated packet)) ;;
  ret packet.

(** ** The runs in closed form

    What one poll cycle and one pass of the interrupt loop leave behind when no
    Ctrl-C is pending, written as plain functions on the world; the lemmas below
    show that the monadic code computes exactly these. *)

(** The exit condition of the fix loop on one poll: a fix is held and the
    reported year is a real one. *)
Definition fix_ok (g : gps_state) : bool :=
  has_fix g && negb (tm_year (timestamp_utc g) =? SENTINEL_YEAR).

(** The value of the loop condition of [get_GPS_Fix]. *)
Definition waiting (w : world) : bool :=
  negb (has_fix (gps_module w)) || (check_y w =? SENTINEL_YEAR).

(** The state in which [get_GPS_Fix] enters its loop, and what it does to the
    state in which it leaves the loop. *)
Definition gps_entry (w : world) : world :=
  with_check_y 2020
    (record (GpsCommand "PMTK220,1000")
       (record (GpsCommand "PMTK314,0,1,0,1,0,0,0,0,0,0,0,0,0,0,0,0,0,0,0")
          (record GpsOpen (record (GpsEnable true) w)))).

Definition fix_time (g : gps_state) : struct_time :=
  let t := timestamp_utc g in
  mk_struct_time (tm_year t) (tm_mon t) (tm_mday t) (tm_hour t) (tm_min t) (tm_sec t)
                 (tm_wday t) (tm_yday t) (-1).

Definition gps_exit (w : world) : world :=
  let w1 := record (Print MsgGotFix) w in
  record (RtcWrite (fix_time (gps_module w))) (with_rtc (fix_time (gps_module w)) w1).

Definition after_cycle (g : gps_state) (w : world) : world :=
  record (Sleep 1000)
    (with_check_y (tm_year (timestamp_utc g))
       (record (GpsUpdate (has_fix g) (tm_year (timestamp_utc g)))
          (with_gps g (tl (gps_feed w))
             (record (Print MsgWaitingForFix) w)))).

Fixpoint cycles (gs : list gps_state) (w : world) : world :=
  match gs with
  | [] => w
  | g :: gs' => cycles gs' (after_cycle g w)
  end.

(** Does a pass over this tick leave the loop? *)
Definition pass_ctl (LS : bool) (t : tick) : ctl :=
  match t with
  | PinLow => Continue
  | PinHigh r =>
      if LS then
        if interrupt_register r =? NOISE then Continue
        else if interrupt_register r =? DISTURBER then Break
        else if interrupt_register r =? LIGHTNING then Break
        else Continue
      else Break
  end.

Definition settle (w : world) : world :=
  record (SetLed false) (record (Sleep 500) w).

Definition after_pass (LS : bool) (t : tick) (w : world) : world :=
  match t with
  | PinLow => record (ReadPin false) (with_irq_feed (tl (irq_feed w)) w)
  | PinHigh r =>
      let w1 := record (ReadPin true) (with_as3935 r (with_irq_feed (tl (irq_feed w)) w)) in
      if LS then
        let v := interrupt_register r in
        let d := distance_to_storm r in
        let w2 := record (ReadEnergy (lightning_energy r))
                    (with_distance d
                       (record (ReadDistance d)
                          (record (ReadInterruptRegister v) w1))) in
        if v =? NOISE then
          settle (record ClearStatistics (record (Print MsgNoise) w2))
        else if v =? DISTURBER then
          record ClearStatistics
            (record (Print (MsgDisturber (i_count w + 1) d))
               (with_i (i_count w + 1) w2))
        else if v =? LIGHTNING then
          record ClearStatistics
            (record (Print (MsgLightning d)) (record (SetLed true) w2))
        else settle w2
      else w1
  end.

Fixpoint passes (LS : bool) (ts : list tick) (w : world) : world :=
  match ts with
  | [] => w
  | t :: ts' => passes LS ts' (after_pass LS t w)
  end.

(** The state in which [lightning] enters its loop. *)
Definition lightning_entry (w : world) : world := with_i 0 (with_distance (-1) w).

(** ** [Sensor.__init__]: the positioning part

    Lines 41 to 54 of [__init__]: the fix is acquired, the coordinates are
    stored in [self], the file name is formed, and after half a second the
    receiver is switched off.  The file name is the value returned here, since
    the world has no field for it.  Creating the pin and clock objects and
    setting the direction of the power pin issue no command of their own.  The
    set-up of the detector that follows in [__init__] (lines 56 to 97) is not
    part of this development. *)

(** [constants.NAME] *)
Variable NAME : string.

Definition with_self_gps (lat long : coord) (w : world) : world :=
  mk_world (gps_feed w) (gps_module w) (irq_feed w) (as3935 w)
           (rtc_datetime w) (rtc_age w) (steps w) (sigint w)
           (check_y w) (distance w) (i_count w)
           lat long (log w).

(** [f"{NAME}_{time.time()}_({self.gps_lat},{self.gps_long})"] *)
Definition filename_of (t : Z) (lat long : coord) : string :=
  (NAME ++ "_" ++ str_int t ++ "_(" ++ coord_str lat ++ "," ++ coord_str long ++ ")")%string.

Definition init_positioning (GPS : bool) : M string :=
  fix_ <- get_GPS_Fix GPS ;;
  modify (with_self_gps (fst fix_) (snd fix_)) ;;
  t <- time_time ;;
  lat <- get self_gps_lat ;;
  long <- get self_gps_long ;;
  let filename := filename_of t lat long in
  op (Sleep 500) ;;
  op (GpsEnable false) ;;
  ret filename.

(** The world after [n] calls of [collect] in a row, however each of them
    ended. *)
Fixpoint after_collects (LS : bool) (n : nat) (w : world) : world :=
  match n with
  | O => w
  | S k => after_collects LS k (snd (collect LS w))
  end.

End Node.

Arguments world : clear implicits.
Arguments gps_state : clear implicits.
Arguments packet_fields : clear implicits.
Arguments M : clear implicits.

(** ** Reading the log *)

(** A tick whose interrupt cause ends the wait of an enabled detector. *)
Definition terminal (t : tick) : bool :=
  match t with
  | PinLow => false
  | PinHigh r => (interrupt_register r =? DISTURBER) || (interrupt_register r =? LIGHTNING)
  end.

Definition is_cause (v : Z) : bool :=
  (v =? NOISE) || (v =? DISTURBER) || (v =? LIGHTNING).

(** Over a chronological list of commands: every read of the interrupt
    register that returned one of the three causes is answered by one
    [clear_statistics] before the next read of the register and before the
    end of the list, and [clear_statistics] is issued at no other time. *)
Fixpoint clears_follow (pending : bool) (l : list action) : bool :=
  match l with
  | [] => negb pending
  | ReadInterruptRegister v :: l' => negb pending && clears_follow (is_cause v) l'
  | ClearStatistics :: l' => pending && clears_follow false l'
  | _ :: l' => clears_follow pending l'
  end.

Definition is_register_read (a : action) : bool :=
  match a with ReadInterruptRegister _ => true | _ => false end.

Definition is_clear (a : action) : bool :=
  match a with ClearStatistics => true | _ => false end.

(** The reads of the interrupt register that an enabled detector owes to a
    run of ticks: one for every look at which the pin was high, with the
    cause that stood in the register. *)
Fixpoint register_reads (ts : list tick) : list action :=
  match ts with
  | [] => []
  | PinLow :: ts' => register_reads ts'
  | PinHigh r :: ts' => ReadInterruptRegister (interrupt_register r) :: register_reads ts'
  end.

(** A tick whose interrupt carries one of the three causes. *)
Definition caused (t : tick) : bool :=
  match t with
  | PinLow => false
  | PinHigh r => is_cause (interrupt_register r)
  end.

Definition is_distance_read (a : action) : bool :=
  match a with ReadDistance _ => true | _ => false end.

Definition is_update (a : action) : bool :=
  match a with GpsUpdate _ _ => true | _ => false end.

Definition is_sleep (a : action) : bool :=
  match a with Sleep _ => true | _ => false end.

Definition count (f : action -> bool) (l : list action) : nat :=
  List.length (filter f l).

(** What every piece of the interrupt loop guarantees, with or without a
    Ctrl-C: it only adds to the log, it leaves the local [distance] alone unless
    it logs a read of the distance, and it leaves the pending Ctrl-C pending
    unless it ends by raising it. *)
Definition quiet {coord} (w w' : world coord) : Prop :=
  exists d, log w' = d ++ log w /\
            (count is_distance_read d = 0%nat -> distance w' = distance w).

Definition ran {coord A} (w : world coord) (x : res A * world coord) : Prop :=
  quiet w (snd x) /\
  match fst x with
  | Raise _ => sigint (snd x) = None /\ sigint w <> None
  | _ => sigint (snd x) = sigint w
  end.

Definition Ran {coord A} (m : M coord A) : Prop := forall w, ran w (m w).

(** ** More ways to read the log and to compare worlds *)

(** A sleep of exactly [ms] milliseconds. *)
Definition sleeps_for (ms : Z) (a : action) : bool :=
  match a with Sleep m => m =? ms | _ => false end.

Definition is_rtc_write (a : action) : bool :=
  match a with RtcWrite _ => true | _ => false end.

Definition is_pin_read (a : action) : bool :=
  match a with ReadPin _ => true | _ => false end.

Definition is_high (t : tick) : bool :=
  match t with PinHigh _ => true | PinLow => false end.

(** The state of the indicator LED after a log (newest command first):
    what the latest [SetLed] wrote, if there was one. *)
Fixpoint indicator (l : list action) : option bool :=
  match l with
  | [] => None
  | SetLed b :: _ => Some b
  | _ :: l' => indicator l'
  end.

(** The state of the receiver's power pin after a log (newest command
    first). *)
Fixpoint gps_power (l : list action) : option bool :=
  match l with
  | [] => None
  | GpsEnable b :: _ => Some b
  | _ :: l' => gps_power l'
  end.

(** The distance most recently read from the detector in a log (newest
    command first), or [d0] when the log holds no such read. *)
Fixpoint latest_distance (l : list action) (d0 : Z) : Z :=
  match l with
  | [] => d0
  | ReadDistance d :: _ => d
  | _ :: l' => latest_distance l' d0
  end.

(** The local [distance] follows the reads of the distance in the log. *)
Definition tracks {coord} (w w' : world coord) : Prop :=
  exists d, log w' = d ++ log w /\ distance w' = latest_distance d (distance w).

(** Two worlds agree on everything the fix acquisition established: the
    calendar written to the clock, the stored coordinates, and the state of
    the receiver. *)
Definition same_station {coord} (w w' : world coord) : Prop :=
  rtc_datetime w' = rtc_datetime w /\
  self_gps_lat w' = self_gps_lat w /\
  self_gps_long w' = self_gps_long w /\
  gps_feed w' = gps_feed w /\
  gps_module w' = gps_module w.

Definition same_clock {coord} (w w' : world coord) : Prop :=
  rtc_datetime w' = rtc_datetime w.

(** A piece of code relates the world it leaves to the world it found by
    [R], however it ends; and the same, except when it returns a value. *)
Definition Respects {coord A} (R : world coord -> world coord -> Prop)
    (m : M coord A) : Prop :=
  forall w, R w (snd (m w)).

Definition Unless {coord A} (R : world coord -> world coord -> Prop)
    (m : M coord A) : Prop :=
  forall w, match fst (m w) with Val _ => True | _ => R w (snd (m w)) end.

(** Integers as coordinates. *)
#[export] Instance Z_coordinate : Coordinate Z :=
  {| coord_of_int z := z; coord_str := str_int |}.

(** ** A simulated node

    Integer coordinates, a clock that gains a second per operation, and a
    world that has just been powered on. *)

Definition power_on_time : struct_time := mk_struct_time 2000 1 1 0 0 0 5 1 (-1).

Definition sim_clock (st : struct_time) (n : nat) : Z :=
  tm_sec st + Z.of_nat n.

Definition sim_localtime (t : Z) : struct_time :=
  mk_struct_time 2000 1 1 0 0 t 5 1 (-1).

Definition sim_world (polls : list (gps_state Z)) (ticks : list tick)
    (ctrl_c : option nat) : world Z :=
  mk_world polls (mk_gps_state false power_on_time 0 0) ticks (mk_readout 0 0 0)
           power_on_time 0 0 ctrl_c 0 0 0 (-1) (-1) [].

Definition poll (fix_ : bool) (year : Z) (lat long : Z) : gps_state Z :=
  mk_gps_state fix_ (mk_struct_time year 6 15 12 30 45 2 167 0) lat long.

(** Scenario D: three polls that hold a fix but still report the power-on
    year, then one with a real year. *)
Definition scenario_D : list (gps_state Z) :=
  [poll true 2020 0 0; poll true 2020 0 0; poll true 2020 0 0; poll true 2024 29 (-95)].

(** A pin that goes high on noise once, then on a disturber 4 km away
    (scenario B). *)
Definition scenario_B : list tick :=
  [PinLow; PinLow; PinHigh (mk_readout NOISE 10 3); PinLow;
   PinHigh (mk_readout DISTURBER 4 1000)].

(** A single strike 1 km away (scenario C). *)
Definition scenario_C : list tick :=
  [PinHigh (mk_readout LIGHTNING 1 5000)].

(** A node that waits for an event: the pin is going to deliver [ticks] and
    the operator's Ctrl-C arrives at step [ctrl_c], if at all. *)
Definition waiting_node (ticks : list tick) (ctrl_c : option nat) : world Z :=
  sim_world [] ticks ctrl_c.

(** * Proofs *)

Section Runs.

Context {coord : Type} {coord_num : Coordinate coord}.
Variable clock : struct_time -> nat -> Z.
Variable localtime : Z -> struct_time.

Implicit Types (w : world coord) (g : gps_state coord).

(** ** Running the monad when no Ctrl-C is pending *)

Lemma bind_val {A B} (m : M coord A) (k : A -> M coord B) w a w1 :
  m w = (Val a, w1) -> bind m k w = k a w1.
Proof. intros E. unfold bind. now rewrite E. Qed.

Lemma bind_blocked {A B} (m : M coord A) (k : A -> M coord B) w w1 :
  m w = (Blocked, w1) -> bind m k w = (Blocked, w1).
Proof. intros E. unfold bind. now rewrite E. Qed.

Lemma interruptible_quiet {A} (m : M coord A) w :
  sigint w = None -> interruptible m w = m w.
Proof. intros E. unfold interruptible. now rewrite E. Qed.

Lemma op_run a w : sigint w = None -> op a w = (Val tt, record a w).
Proof. intros E. unfold op. now rewrite interruptible_quiet. Qed.

Lemma while_step fuel (cond : M coord bool) (body : M coord ctl) w :
  while_ (S fuel) cond body w =
  bind cond (fun c =>
    if c then
      bind body (fun k => match k with Break => ret tt | Continue => while_ fuel cond body end)
    else ret tt) w.
Proof. reflexivity. Qed.

(** ** The fix loop *)

Lemma gps_cond_run w : gps_cond w = (Val (waiting w), w).
Proof. reflexivity. Qed.

(** Step through straight-line code on a world whose [sigint] is known. *)
Ltac crunch Hs :=
  unfold bind, op, interruptible, modify, get, ret;
  repeat (progress (cbn; rewrite ?Hs)).

Lemma gps_cycle_run w g f :
  sigint w = None -> gps_feed w = g :: f ->
  gps_cycle w = (Val Continue, after_cycle g w).
Proof.
  intros Hs Hf. unfold gps_cycle, gps_update, after_cycle.
  crunch Hs. rewrite Hf. crunch Hs. reflexivity.
Qed.

Lemma gps_cycle_starved w :
  sigint w = None -> gps_feed w = [] ->
  gps_cycle w = (Blocked, record (Print MsgWaitingForFix) w).
Proof.
  intros Hs Hf. unfold gps_cycle, gps_update.
  crunch Hs. rewrite Hf. reflexivity.
Qed.

Lemma after_cycle_feed g w : gps_feed (after_cycle g w) = tl (gps_feed w).
Proof. reflexivity. Qed.

Lemma after_cycle_waiting g w : waiting (after_cycle g w) = negb (fix_ok g).
Proof.
  unfold waiting, fix_ok. cbn.
  destruct (has_fix g), (tm_year (timestamp_utc g) =? SENTINEL_YEAR); reflexivity.
Qed.

Lemma gps_while_returns pre : forall g post fuel w,
  sigint w = None ->
  gps_feed w = pre ++ g :: post ->
  (List.length (gps_feed w) < fuel)%nat ->
  waiting w = true ->
  Forall (fun q => fix_ok q = false) pre ->
  fix_ok g = true ->
  while_ fuel gps_cond gps_cycle w = (Val tt, cycles (pre ++ [g]) w).
Proof.
  induction pre as [|q pre IH]; intros g post fuel w Hs Hf Hfuel Hw Hpre Hg.
  - cbn [app] in *. rewrite Hf in Hfuel. cbn [List.length] in Hfuel.
    destruct fuel as [|fuel]; [lia|]. rewrite while_step.
    rewrite (bind_val _ _ _ _ _ (gps_cond_run w)), Hw.
    rewrite (bind_val _ _ _ _ _ (gps_cycle_run w g post Hs Hf)).
    destruct fuel as [|fuel]; [lia|]. rewrite while_step.
    rewrite (bind_val _ _ _ _ _ (gps_cond_run _)).
    rewrite after_cycle_waiting, Hg. reflexivity.
  - cbn [app] in *. rewrite Hf in Hfuel. cbn [List.length] in Hfuel.
    destruct fuel as [|fuel]; [lia|]. rewrite while_step.
    rewrite (bind_val _ _ _ _ _ (gps_cond_run w)), Hw.
    rewrite (bind_val _ _ _ _ _ (gps_cycle_run w q _ Hs Hf)).
    inversion Hpre as [|? ? Hq Hpre']; subst.
    cbn [cycles]. apply IH with (post := post); auto.
    + rewrite after_cycle_feed, Hf. reflexivity.
    + rewrite after_cycle_feed, Hf. cbn [tl]. lia.
    + rewrite after_cycle_waiting, Hq. reflexivity.
Qed.

Lemma gps_while_blocks feed : forall fuel w,
  sigint w = None ->
  gps_feed w = feed ->
  waiting w = true ->
  Forall (fun q => fix_ok q = false) feed ->
  fst (while_ fuel gps_cond gps_cycle w) = Blocked.
Proof.
  induction feed as [|q feed IH]; intros fuel w Hs Hf Hw Hall.
  - destruct fuel as [|fuel]; [reflexivity|]. rewrite while_step.
    rewrite (bind_val _ _ _ _ _ (gps_cond_run w)), Hw.
    rewrite (bind_blocked _ _ _ _ (gps_cycle_starved w Hs Hf)). reflexivity.
  - destruct fuel as [|fuel]; [reflexivity|]. rewrite while_step.
    rewrite (bind_val _ _ _ _ _ (gps_cond_run w)), Hw.
    rewrite (bind_val _ _ _ _ _ (gps_cycle_run w q _ Hs Hf)).
    inversion Hall as [|? ? Hq Hall']; subst.
    apply IH; auto.
    + rewrite after_cycle_feed, Hf. reflexivity.
    + rewrite after_cycle_waiting, Hq. reflexivity.
Qed.

Lemma cycles_app l1 : forall l2 w, cycles (l1 ++ l2) w = cycles l2 (cycles l1 w).
Proof. induction l1; intros; cbn; auto. Qed.

Lemma cycles_sigint l : forall w, sigint (cycles l w) = sigint w.
Proof. induction l; intros; cbn [cycles]; auto. now rewrite IHl. Qed.

Lemma cycles_feed l : forall w post, gps_feed w = l ++ post -> gps_feed (cycles l w) = post.
Proof.
  induction l; intros w post E; cbn [cycles]; auto.
  apply IHl. rewrite after_cycle_feed, E. reflexivity.
Qed.

Lemma cycles_last l g w : gps_module (cycles (l ++ [g]) w) = g.
Proof. rewrite cycles_app. reflexivity. Qed.

Lemma fix_ok_true g :
  fix_ok g = true <-> has_fix g = true /\ tm_year (timestamp_utc g) <> SENTINEL_YEAR.
Proof.
  unfold fix_ok. rewrite andb_true_iff, negb_true_iff, Z.eqb_neq. tauto.
Qed.

Lemma fix_ok_false g :
  fix_ok g = false <-> has_fix g = false \/ tm_year (timestamp_utc g) = SENTINEL_YEAR.
Proof.
  unfold fix_ok. rewrite andb_false_iff, negb_false_iff, Z.eqb_eq. tauto.
Qed.

(** A list of polls either has a first poll that passes the guard or has none. *)
Lemma first_fix (feed : list (gps_state coord)) :
  (exists pre g post, feed = pre ++ g :: post /\
      Forall (fun q => fix_ok q = false) pre /\ fix_ok g = true)
  \/ Forall (fun q => fix_ok q = false) feed.
Proof.
  induction feed as [|q feed IH].
  - right. constructor.
  - destruct (fix_ok q) eqn:Hq.
    + left. exists [], q, feed. repeat split; auto.
    + destruct IH as [(pre & g & post & -> & Hpre & Hg)|Hall].
      * left. exists (q :: pre), g, post. repeat split; auto.
      * right. constructor; auto.
Qed.

Lemma bind_modify {B} (f : world coord -> world coord) (k : unit -> M coord B) w :
  bind (modify f) k w = k tt (f w).
Proof. reflexivity. Qed.

Lemma bind_get {A B} (f : world coord -> A) (k : A -> M coord B) w :
  bind (get f) k w = k (f w) w.
Proof. reflexivity. Qed.

Ltac run_op Hs :=
  match goal with
  | |- context [bind (op ?a) ?k ?w0] =>
      rewrite (bind_val (op a) k w0 tt (record a w0) (op_run a w0 Hs)); cbv beta
  end.

Lemma gps_entry_waiting w : waiting (gps_entry w) = true.
Proof. unfold waiting. cbn. apply orb_true_r. Qed.

Lemma get_GPS_Fix_enters w :
  sigint w = None ->
  get_GPS_Fix true w =
  bind gps_wait (fun _ =>
    bind (op (Print MsgGotFix)) (fun _ =>
    bind (get (fun w => latitude (gps_module w))) (fun gps_lat =>
    bind (get (fun w => longitude (gps_module w))) (fun gps_long =>
    bind (get (fun w => timestamp_utc (gps_module w))) (fun t =>
    bind (rtc_write (mk_struct_time (tm_year t) (tm_mon t) (tm_mday t)
                              (tm_hour t) (tm_min t) (tm_sec t)
                              (tm_wday t) (tm_yday t) (-1))) (fun _ =>
    ret (gps_lat, gps_long))))))) (gps_entry w).
Proof.
  intros Hs. unfold get_GPS_Fix. do 4 run_op Hs. rewrite bind_modify. reflexivity.
Qed.

Lemma get_GPS_Fix_returns w pre g post :
  sigint w = None ->
  gps_feed w = pre ++ g :: post ->
  Forall (fun q => fix_ok q = false) pre ->
  fix_ok g = true ->
  get_GPS_Fix true w =
    (Val (latitude g, longitude g), gps_exit (cycles (pre ++ [g]) (gps_entry w))).
Proof.
  intros Hs Hf Hpre Hg.
  assert (Hloop : gps_wait (gps_entry w) = (Val tt, cycles (pre ++ [g]) (gps_entry w))).
  { unfold gps_wait. rewrite bind_get.
    apply gps_while_returns with (post := post);
      [exact Hs | exact Hf | apply Nat.lt_succ_diag_r | apply gps_entry_waiting
      | exact Hpre | exact Hg]. }
  assert (Hs' : sigint (cycles (pre ++ [g]) (gps_entry w)) = None)
    by (rewrite cycles_sigint; exact Hs).
  assert (Hm := cycles_last pre g (gps_entry w)).
  rewrite get_GPS_Fix_enters by exact Hs.
  rewrite (bind_val _ _ _ _ _ Hloop).
  run_op Hs'. rewrite !bind_get.
  unfold rtc_write. rewrite bind_val with (a := tt)
    (w1 := gps_exit (cycles (pre ++ [g]) (gps_entry w))).
  - cbn [gps_module record]. rewrite Hm. reflexivity.
  - rewrite interruptible_quiet by exact Hs'. reflexivity.
Qed.

Lemma get_GPS_Fix_blocks w :
  sigint w = None ->
  Forall (fun q => fix_ok q = false) (gps_feed w) ->
  fst (get_GPS_Fix true w) = Blocked.
Proof.
  intros Hs Hall.
  rewrite get_GPS_Fix_enters by exact Hs.
  assert (Hloop : fst (gps_wait (gps_entry w)) = Blocked).
  { unfold gps_wait. rewrite bind_get.
    apply gps_while_blocks with (feed := gps_feed w);
      [exact Hs | reflexivity | apply gps_entry_waiting | exact Hall]. }
  unfold bind at 1. destruct (gps_wait (gps_entry w)) as [[ | |] w1]; cbn in Hloop; try discriminate.
  reflexivity.
Qed.

Lemma log_cons_app (a : action) l d r : l = d ++ r -> a :: l = (a :: d) ++ r.
Proof. intros ->. reflexivity. Qed.

Lemma repeat_shift {A} (x : A) n : forall l, repeat x n ++ x :: l = x :: repeat x n ++ l.
Proof. induction n; intros l; cbn; [reflexivity|]. now rewrite IHn. Qed.

(** Solve [a1 :: ... :: an :: l = ?d ++ l]. *)
Ltac log_delta :=
  repeat (eapply log_cons_app);
  match goal with |- ?l = _ => exact (eq_refl ([] ++ l)) end.

(** ** The interrupt loop when no Ctrl-C is pending *)

Lemma lightning_pass_run LS w t f :
  sigint w = None -> irq_feed w = t :: f ->
  lightning_pass LS w = (Val (pass_ctl LS t), after_pass LS t w).
Proof.
  intros Hs Hf. unfold lightning_pass, pin_value, read_interrupt_register,
    read_distance_to_storm, read_lightning_energy, after_pass, pass_ctl, settle.
  crunch Hs. rewrite Hf. destruct t as [|r]; [reflexivity|].
  destruct LS; [|reflexivity].
  crunch Hs.
  destruct (interrupt_register r =? NOISE); [crunch Hs; reflexivity|].
  destruct (interrupt_register r =? DISTURBER); [crunch Hs; reflexivity|].
  destruct (interrupt_register r =? LIGHTNING); crunch Hs; reflexivity.
Qed.

Lemma lightning_pass_starved LS w :
  sigint w = None -> irq_feed w = [] -> lightning_pass LS w = (Blocked, w).
Proof.
  intros Hs Hf. unfold lightning_pass, pin_value. crunch Hs. rewrite Hf. reflexivity.
Qed.

Lemma after_pass_sigint LS t w : sigint (after_pass LS t w) = sigint w.
Proof.
  unfold after_pass. destruct t as [|r]; [reflexivity|]. destruct LS; [|reflexivity].
  cbv zeta.
  destruct (interrupt_register r =? NOISE); [reflexivity|].
  destruct (interrupt_register r =? DISTURBER); [reflexivity|].
  destruct (interrupt_register r =? LIGHTNING); reflexivity.
Qed.

Lemma after_pass_feed LS t w : irq_feed (after_pass LS t w) = tl (irq_feed w).
Proof.
  unfold after_pass. destruct t as [|r]; [reflexivity|]. destruct LS; [|reflexivity].
  cbv zeta.
  destruct (interrupt_register r =? NOISE); [reflexivity|].
  destruct (interrupt_register r =? DISTURBER); [reflexivity|].
  destruct (interrupt_register r =? LIGHTNING); reflexivity.
Qed.

(** One turn of the loop. *)
Lemma lightning_loop_step LS w t f :
  sigint w = None -> irq_feed w = t :: f ->
  lightning_loop LS w =
  match pass_ctl LS t with
  | Break => (Val tt, after_pass LS t w)
  | Continue => lightning_loop LS (after_pass LS t w)
  end.
Proof.
  intros Hs Hf. unfold lightning_loop. rewrite !bind_get. unfold irq_fuel.
  rewrite after_pass_feed, Hf. cbn [List.length tl]. rewrite while_step.
  rewrite bind_val with (a := true) (w1 := w) by reflexivity.
  rewrite (bind_val _ _ _ _ _ (lightning_pass_run LS w t f Hs Hf)).
  destruct (pass_ctl LS t); reflexivity.
Qed.

Lemma lightning_loop_starved LS w :
  sigint w = None -> irq_feed w = [] -> lightning_loop LS w = (Blocked, w).
Proof.
  intros Hs Hf. unfold lightning_loop. rewrite bind_get. unfold irq_fuel.
  rewrite Hf. cbn [List.length]. rewrite while_step.
  rewrite bind_val with (a := true) (w1 := w) by reflexivity.
  rewrite (bind_blocked _ _ _ _ (lightning_pass_starved LS w Hs Hf)). reflexivity.
Qed.

Lemma passes_app LS l1 : forall l2 w, passes LS (l1 ++ l2) w = passes LS l2 (passes LS l1 w).
Proof. induction l1; intros; cbn; auto. Qed.

Lemma passes_sigint LS l : forall w, sigint (passes LS l w) = sigint w.
Proof.
  induction l; intros; cbn [passes]; auto. now rewrite IHl, after_pass_sigint.
Qed.

Lemma passes_feed LS l : forall w post,
  irq_feed w = l ++ post -> irq_feed (passes LS l w) = post.
Proof.
  induction l; intros w post E; cbn [passes]; auto.
  apply IHl. rewrite after_pass_feed, E. reflexivity.
Qed.

Lemma lightning_loop_returns LS pre : forall t post w,
  sigint w = None ->
  irq_feed w = pre ++ t :: post ->
  Forall (fun u => pass_ctl LS u = Continue) pre ->
  pass_ctl LS t = Break ->
  lightning_loop LS w = (Val tt, passes LS (pre ++ [t]) w).
Proof.
  induction pre as [|u pre IH]; intros t post w Hs Hf Hpre Ht.
  - rewrite (lightning_loop_step LS w t post Hs Hf), Ht. reflexivity.
  - inversion Hpre as [|? ? Hu Hpre']; subst.
    rewrite (lightning_loop_step LS w u _ Hs Hf), Hu.
    cbn [app passes]. apply IH with (post := post); auto.
    + now rewrite after_pass_sigint.
    + rewrite after_pass_feed, Hf. reflexivity.
Qed.

Lemma lightning_loop_blocks LS feed : forall w,
  sigint w = None ->
  irq_feed w = feed ->
  Forall (fun u => pass_ctl LS u = Continue) feed ->
  lightning_loop LS w = (Blocked, passes LS feed w).
Proof.
  induction feed as [|u feed IH]; intros w Hs Hf Hall.
  - now apply lightning_loop_starved.
  - inversion Hall as [|? ? Hu Hall']; subst.
    rewrite (lightning_loop_step LS w u _ Hs Hf), Hu.
    cbn [passes]. apply IH; auto.
    + now rewrite after_pass_sigint.
    + rewrite after_pass_feed, Hf. reflexivity.
Qed.

(** A list of ticks either has a first tick that ends the wait or has none. *)
Lemma first_break LS (feed : list tick) :
  (exists pre t post, feed = pre ++ t :: post /\
      Forall (fun u => pass_ctl LS u = Continue) pre /\ pass_ctl LS t = Break)
  \/ Forall (fun u => pass_ctl LS u = Continue) feed.
Proof.
  induction feed as [|u feed IH].
  - right. constructor.
  - destruct (pass_ctl LS u) eqn:Hu.
    + destruct IH as [(pre & t & post & -> & Hpre & Ht)|Hall].
      * left. exists (u :: pre), t, post. repeat split; auto.
      * right. constructor; auto.
    + left. exists [], u, feed. repeat split; auto.
Qed.

Lemma lightning_enters LS w : lightning LS w = lightning_wait LS (lightning_entry w).
Proof. reflexivity. Qed.

Lemma lightning_returns LS w pre t post :
  sigint w = None ->
  irq_feed w = pre ++ t :: post ->
  Forall (fun u => pass_ctl LS u = Continue) pre ->
  pass_ctl LS t = Break ->
  lightning LS w =
    (Val (distance (passes LS (pre ++ [t]) (lightning_entry w))),
     passes LS (pre ++ [t]) (lightning_entry w)).
Proof.
  intros Hs Hf Hpre Ht. rewrite lightning_enters. unfold lightning_wait, try_except.
  unfold bind at 1.
  rewrite (lightning_loop_returns LS pre t post (lightning_entry w)); auto.
Qed.

Lemma lightning_blocks LS w :
  sigint w = None ->
  Forall (fun u => pass_ctl LS u = Continue) (irq_feed w) ->
  lightning LS w = (Blocked, passes LS (irq_feed w) (lightning_entry w)).
Proof.
  intros Hs Hall. rewrite lightning_enters. unfold lightning_wait, try_except.
  unfold bind at 1.
  rewrite (lightning_loop_blocks LS (irq_feed w) (lightning_entry w)); auto.
Qed.

Lemma pass_ctl_enabled t :
  pass_ctl true t = if terminal t then Break else Continue.
Proof.
  destruct t as [|r]; [reflexivity|]. unfold pass_ctl, terminal, NOISE, DISTURBER, LIGHTNING.
  destruct (Z.eqb_spec (interrupt_register r) 1) as [E|_].
  - rewrite E. reflexivity.
  - destruct (interrupt_register r =? 4), (interrupt_register r =? 8); reflexivity.
Qed.

Lemma pass_ctl_enabled_continue t : pass_ctl true t = Continue <-> terminal t = false.
Proof. rewrite pass_ctl_enabled. destruct (terminal t); split; congruence. Qed.

Lemma pass_ctl_enabled_break t :
  pass_ctl true t = Break <->
  exists r, t = PinHigh r /\
    (interrupt_register r = DISTURBER \/ interrupt_register r = LIGHTNING).
Proof.
  rewrite pass_ctl_enabled. destruct t as [|r]; cbn.
  - split; [discriminate|]. intros (r & E & _). discriminate.
  - destruct (Z.eqb_spec (interrupt_register r) DISTURBER) as [E|N1]; cbn.
    + split; auto. intros _. exists r. auto.
    + destruct (Z.eqb_spec (interrupt_register r) LIGHTNING) as [E|N2]; cbn.
      * split; auto. intros _. exists r. auto.
      * split; [discriminate|]. intros (r' & [= <-] & [E|E]); contradiction.
Qed.

Lemma pass_ctl_disabled_continue t : pass_ctl false t = Continue <-> t = PinLow.
Proof. destruct t; cbn; split; congruence. Qed.

Lemma clears_follow_app l1 : forall pending l2,
  clears_follow pending l1 = true ->
  clears_follow pending (l1 ++ l2) = clears_follow false l2.
Proof.
  induction l1 as [|a l1 IH]; intros pending l2 H.
  - cbn in *. now destruct pending.
  - destruct a; cbn in *; auto.
    + apply andb_true_iff in H. destruct H as [H1 H2]. rewrite H1. cbn. now apply IH.
    + apply andb_true_iff in H. destruct H as [H1 H2]. rewrite H1. cbn. now apply IH.
Qed.

Lemma after_pass_clears t w :
  exists d, log (after_pass true t w) = d ++ log w /\ clears_follow false (rev d) = true.
Proof.
  unfold after_pass, settle. destruct t as [|r].
  - eexists. split; [cbn; log_delta|reflexivity].
  - cbv zeta. unfold is_cause.
    destruct (Z.eqb_spec (interrupt_register r) NOISE) as [E|N1].
    { eexists. split; [cbn; log_delta|]. cbn. unfold is_cause. rewrite E. reflexivity. }
    destruct (Z.eqb_spec (interrupt_register r) DISTURBER) as [E|N2].
    { eexists. split; [cbn; log_delta|]. cbn. unfold is_cause. rewrite E. reflexivity. }
    destruct (Z.eqb_spec (interrupt_register r) LIGHTNING) as [E|N3].
    { eexists. split; [cbn; log_delta|]. cbn. unfold is_cause. rewrite E. reflexivity. }
    eexists. split; [cbn; log_delta|]. cbn. unfold is_cause.
    apply Z.eqb_neq in N1, N2, N3. rewrite N1, N2, N3. reflexivity.
Qed.

Lemma passes_clears ts : forall w,
  exists d, log (passes true ts w) = d ++ log w /\ clears_follow false (rev d) = true.
Proof.
  induction ts as [|t ts IH]; intros w; cbn [passes].
  - exists []. split; reflexivity.
  - destruct (IH (after_pass true t w)) as (d2 & E2 & C2).
    destruct (after_pass_clears t w) as (d1 & E1 & C1).
    exists (d2 ++ d1). split.
    + rewrite E2, E1. apply app_assoc.
    + rewrite rev_app_distr. rewrite clears_follow_app; auto.
Qed.

Lemma count_app f (l1 l2 : list action) : count f (l1 ++ l2) = (count f l1 + count f l2)%nat.
Proof. unfold count. now rewrite filter_app, length_app. Qed.

(** The commands of one pass, tied to the tick the pass consumed. *)
Lemma after_pass_reads t w :
  exists d, log (after_pass true t w) = d ++ log w /\
            clears_follow false (rev d) = true /\
            filter is_register_read (rev d) = register_reads [t] /\
            count is_clear d = (if caused t then 1 else 0)%nat.
Proof.
  unfold after_pass, settle. destruct t as [|r].
  - eexists. split; [cbn; log_delta|]. repeat split.
  - cbv zeta. unfold caused, is_cause.
    destruct (Z.eqb_spec (interrupt_register r) NOISE) as [E|N1].
    { eexists. split; [cbn; log_delta|]. cbn. unfold is_cause. rewrite E. repeat split. }
    destruct (Z.eqb_spec (interrupt_register r) DISTURBER) as [E|N2].
    { eexists. split; [cbn; log_delta|]. cbn. unfold is_cause. rewrite E. repeat split. }
    destruct (Z.eqb_spec (interrupt_register r) LIGHTNING) as [E|N3].
    { eexists. split; [cbn; log_delta|]. cbn. unfold is_cause. rewrite E. repeat split. }
    eexists. split; [cbn; log_delta|]. cbn. unfold is_cause.
    apply Z.eqb_neq in N1, N2, N3. rewrite N1, N2, N3. repeat split.
Qed.

Lemma passes_reads ts : forall w,
  exists d, log (passes true ts w) = d ++ log w /\
            clears_follow false (rev d) = true /\
            filter is_register_read (rev d) = register_reads ts /\
            count is_clear d = List.length (filter caused ts).
Proof.
  induction ts as [|t ts IH]; intros w; cbn [passes].
  - exists []. repeat split.
  - destruct (IH (after_pass true t w)) as (d2 & E2 & C2 & R2 & K2).
    destruct (after_pass_reads t w) as (d1 & E1 & C1 & R1 & K1).
    exists (d2 ++ d1). repeat split.
    + rewrite E2, E1. apply app_assoc.
    + rewrite rev_app_distr. rewrite clears_follow_app; auto.
    + rewrite rev_app_distr, filter_app, R1, R2. destruct t; reflexivity.
    + rewrite count_app, K1, K2. cbn [filter]. destruct (caused t); cbn [List.length]; lia.
Qed.

Lemma after_pass_distance r w :
  distance (after_pass true (PinHigh r) w) = distance_to_storm r.
Proof.
  unfold after_pass, settle. cbv zeta.
  destruct (interrupt_register r =? NOISE); [reflexivity|].
  destruct (interrupt_register r =? DISTURBER); [reflexivity|].
  destruct (interrupt_register r =? LIGHTNING); reflexivity.
Qed.

Lemma passes_last_distance pre r w :
  distance (passes true (pre ++ [PinHigh r]) w) = distance_to_storm r.
Proof. rewrite passes_app. cbn [passes]. apply after_pass_distance. Qed.

(** ** The interrupt loop under a Ctrl-C *)

Lemma quiet_refl w : quiet w w.
Proof. exists []. split; reflexivity. Qed.

Lemma quiet_trans w1 w2 w3 : quiet w1 w2 -> quiet w2 w3 -> quiet w1 w3.
Proof.
  intros (d1 & L1 & D1) (d2 & L2 & D2). exists (d2 ++ d1). split.
  - rewrite L2, L1. apply app_assoc.
  - rewrite count_app. intros H. rewrite D2, D1 by lia. reflexivity.
Qed.

Lemma quiet_deliver w : quiet w (deliver w).
Proof. exists []. split; reflexivity. Qed.

Lemma quiet_record a w : quiet w (record a w).
Proof. exists [a]. split; reflexivity. Qed.

Lemma Ran_ret {A} (a : A) : Ran (ret (coord := coord) a).
Proof. intros w. split; [apply quiet_refl|reflexivity]. Qed.

Lemma Ran_get {A} (f : world coord -> A) : Ran (get f).
Proof. intros w. split; [apply quiet_refl|reflexivity]. Qed.

Lemma Ran_bind {A B} (m : M coord A) (k : A -> M coord B) :
  Ran m -> (forall a, Ran (k a)) -> Ran (bind m k).
Proof.
  intros Hm Hk w. unfold bind. specialize (Hm w).
  destruct (m w) as [[a|e|] w1]; try exact Hm.
  destruct Hm as [Q1 S1]. cbn [fst snd] in *.
  specialize (Hk a w1). destruct Hk as [Q2 S2]. split.
  - eapply quiet_trans; eauto.
  - destruct (fst (k a w1)); rewrite <- ?S1; auto.
Qed.

Lemma Ran_interruptible {A} (m : M coord A) : Ran m -> Ran (interruptible m).
Proof.
  intros Hm w. unfold interruptible. destruct (sigint w) as [n|] eqn:Hs.
  - destruct (Nat.eqb n (steps w)).
    + split; [apply quiet_deliver|]. cbn. split; congruence.
    + apply Hm.
  - apply Hm.
Qed.

Lemma Ran_op a : Ran (op (coord := coord) a).
Proof.
  apply Ran_interruptible. intros w. split; [apply quiet_record|reflexivity].
Qed.

Lemma Ran_pin_value : Ran (pin_value (coord := coord)).
Proof.
  apply Ran_interruptible. intros w. destruct (irq_feed w) as [|[|r] f].
  - split; [apply quiet_refl|reflexivity].
  - split; [|reflexivity]. exists [ReadPin false]. split; reflexivity.
  - split; [|reflexivity]. exists [ReadPin true]. split; reflexivity.
Qed.

Lemma Ran_read_interrupt_register : Ran (read_interrupt_register (coord := coord)).
Proof.
  apply Ran_interruptible. intros w. split; [apply quiet_record|reflexivity].
Qed.

Lemma Ran_read_lightning_energy : Ran (read_lightning_energy (coord := coord)).
Proof.
  apply Ran_interruptible. intros w. split; [apply quiet_record|reflexivity].
Qed.

Lemma Ran_set_i n : Ran (modify (coord := coord) (with_i n)).
Proof. intros w. split; [|reflexivity]. exists []. split; reflexivity. Qed.

(** [distance = self.as3935.distance_to_storm]: the local changes, and the
    read is in the log. *)
Lemma Ran_assign_distance {B} (k : Z -> unit -> M coord B) :
  (forall d u, Ran (k d u)) ->
  Ran (bind read_distance_to_storm (fun d => bind (modify (with_distance d)) (k d))).
Proof.
  intros Hk w. unfold bind at 1. unfold read_distance_to_storm, interruptible.
  assert (Hgo : ran w (bind (modify (with_distance (distance_to_storm (as3935 w))))
                            (k (distance_to_storm (as3935 w)))
                            (record (ReadDistance (distance_to_storm (as3935 w))) w))).
  { rewrite bind_modify.
    match goal with |- ran _ (k ?d ?u ?v) => specialize (Hk d u v); set (x := k d u v) in * end.
    destruct Hk as [(dl & L & _) S]. split.
    - exists (dl ++ [ReadDistance (distance_to_storm (as3935 w))]). split.
      + rewrite L. cbn. now rewrite <- app_assoc.
      + rewrite count_app. cbn. lia.
    - exact S. }
  destruct (sigint w) as [n|] eqn:Hs.
  - destruct (Nat.eqb n (steps w)).
    + split; [apply quiet_deliver|]. cbn. split; congruence.
    + exact Hgo.
  - exact Hgo.
Qed.

Lemma Ran_lightning_pass LS : Ran (lightning_pass (coord := coord) LS).
Proof.
  unfold lightning_pass.
  apply Ran_bind; [apply Ran_pin_value|]. intros [|]; [|apply Ran_ret].
  destruct LS; [|apply Ran_ret].
  apply Ran_bind; [apply Ran_read_interrupt_register|]. intros v.
  apply Ran_assign_distance. intros d _.
  apply Ran_bind; [apply Ran_read_lightning_energy|]. intros _.
  apply Ran_bind.
  - destruct (v =? NOISE).
    { repeat (apply Ran_bind; [apply Ran_op|intros _]). apply Ran_ret. }
    destruct (v =? DISTURBER).
    { apply Ran_bind; [apply Ran_get|]. intros i.
      apply Ran_bind; [apply Ran_set_i|]. intros _.
      repeat (apply Ran_bind; [apply Ran_op|intros _]). apply Ran_ret. }
    destruct (v =? LIGHTNING).
    { repeat (apply Ran_bind; [apply Ran_op|intros _]). apply Ran_ret. }
    apply Ran_ret.
  - intros [|]; [|apply Ran_ret].
    repeat (apply Ran_bind; [apply Ran_op|intros _]). apply Ran_ret.
Qed.

Lemma Ran_while fuel (cond : M coord bool) (body : M coord ctl) :
  Ran cond -> Ran body -> Ran (while_ fuel cond body).
Proof.
  intros Hc Hb. induction fuel as [|fuel IH].
  - intros w. split; [apply quiet_refl|reflexivity].
  - cbn [while_]. apply Ran_bind; [exact Hc|]. intros [|]; [|apply Ran_ret].
    apply Ran_bind; [exact Hb|]. intros [|]; [exact IH|apply Ran_ret].
Qed.

Lemma Ran_lightning_loop LS : Ran (lightning_loop (coord := coord) LS).
Proof.
  unfold lightning_loop. apply Ran_bind; [apply Ran_get|]. intros fuel.
  apply Ran_while; [apply Ran_ret|apply Ran_lightning_pass].
Qed.

(** ** What the interrupt loop leaves alone *)

Lemma after_pass_frame LS t w :
  rtc_datetime (after_pass LS t w) = rtc_datetime w /\
  (rtc_age w < rtc_age (after_pass LS t w))%nat /\
  self_gps_lat (after_pass LS t w) = self_gps_lat w /\
  self_gps_long (after_pass LS t w) = self_gps_long w.
Proof.
  unfold after_pass, settle. destruct t as [|r]; [cbn; repeat split; lia|].
  destruct LS; [|cbn; repeat split; lia]. cbv zeta.
  destruct (interrupt_register r =? NOISE); [cbn; repeat split; lia|].
  destruct (interrupt_register r =? DISTURBER); [cbn; repeat split; lia|].
  destruct (interrupt_register r =? LIGHTNING); cbn; repeat split; lia.
Qed.

Lemma passes_frame LS ts : forall w,
  rtc_datetime (passes LS ts w) = rtc_datetime w /\
  (rtc_age w + List.length ts <= rtc_age (passes LS ts w))%nat /\
  self_gps_lat (passes LS ts w) = self_gps_lat w /\
  self_gps_long (passes LS ts w) = self_gps_long w.
Proof.
  induction ts as [|t ts IH]; intros w; cbn [passes List.length].
  - repeat split; lia.
  - destruct (IH (after_pass LS t w)) as (R & A & La & Lo).
    destruct (after_pass_frame LS t w) as (R' & A' & La' & Lo').
    repeat split; try congruence. lia.
Qed.

(** A pass that ends the wait of an enabled detector ends with the
    [clear_statistics] of the classified event. *)
Lemma after_pass_terminal_log r w :
  terminal (PinHigh r) = true ->
  exists d, log (after_pass true (PinHigh r) w) = ClearStatistics :: d ++ log w.
Proof.
  intros H. pose proof (pass_ctl_enabled (PinHigh r)) as P. rewrite H in P.
  unfold pass_ctl in P. unfold after_pass. cbv zeta.
  destruct (interrupt_register r =? NOISE); [discriminate|].
  destruct (interrupt_register r =? DISTURBER).
  { eexists. cbn. f_equal. log_delta. }
  destruct (interrupt_register r =? LIGHTNING); [|discriminate].
  eexists. cbn. f_equal. log_delta.
Qed.

Lemma collect_after LS w stk w1 :
  lightning LS w = (Val stk, w1) ->
  sigint w1 = None ->
  let t1 := clock (rtc_datetime w1) (rtc_age w1) in
  let t2 := clock (rtc_datetime w1) (S (rtc_age w1)) in
  let packet := render (mk_packet (isoformat (localtime t1)) t2
                          (self_gps_lat w1) (self_gps_long w1) stk) in
  collect clock localtime LS w =
    (Val packet,
     record (Print (MsgCreated packet)) (record (TimeRead t2) (record (TimeRead t1) w1))).
Proof.
  intros Hl Hs. unfold collect. rewrite (bind_val _ _ _ _ _ Hl).
  unfold timestamp, time_time. crunch Hs. reflexivity.
Qed.

Lemma bind_val_inv {A B} (m : M coord A) (k : A -> M coord B) w b w' :
  bind m k w = (Val b, w') -> exists a w1, m w = (Val a, w1) /\ k a w1 = (Val b, w').
Proof.
  unfold bind. destruct (m w) as [[a|e|] w1]; try discriminate. eauto.
Qed.

(** ** [get_GPS_Fix]: the claims *)

(** C5. With positioning disabled, [get_GPS_Fix] returns the sentinel
    coordinates [(-1, -1)] at once, whatever the state of the hardware: the
    world it leaves is the world it found, so no poll was made, nothing was
    slept and the real-time clock still holds the value it had. *)
Theorem get_GPS_Fix_disabled w :
  get_GPS_Fix false w = (Val (coord_of_int (-1), coord_of_int (-1)), w).
Proof. reflexivity. Qed.

(** C1. For every simulated sequence of polls, an enabled [get_GPS_Fix]
    returns exactly at the first poll that both holds a fix and reports a year
    other than 2020: every poll observed before it had no fix or still reported
    2020, the poll observed last at the return passes both tests, and when no
    poll of the sequence passes both the call is still waiting at its end. *)
Theorem get_GPS_Fix_waits_for_valid_fix w :
  sigint w = None ->
  match get_GPS_Fix true w with
  | (Val (lat, long), w') =>
      exists pre g post,
        gps_feed w = pre ++ g :: post /\
        Forall (fun q => has_fix q = false \/ tm_year (timestamp_utc q) = 2020) pre /\
        has_fix g = true /\ tm_year (timestamp_utc g) <> 2020 /\
        gps_module w' = g /\ gps_feed w' = post /\
        lat = latitude g /\ long = longitude g
  | (Blocked, _) =>
      Forall (fun q => has_fix q = false \/ tm_year (timestamp_utc q) = 2020) (gps_feed w)
  | (Raise _, _) => False
  end.
Proof.
  intros Hs.
  assert (Himp : forall l : list (gps_state coord),
             Forall (fun q => fix_ok q = false) l ->
             Forall (fun q => has_fix q = false \/ tm_year (timestamp_utc q) = 2020) l).
  { intros l. apply Forall_impl. intros q. apply fix_ok_false. }
  destruct (first_fix (gps_feed w)) as [(pre & g & post & Hf & Hpre & Hg)|Hall].
  - rewrite (get_GPS_Fix_returns w pre g post Hs Hf Hpre Hg).
    exists pre, g, post. apply fix_ok_true in Hg. destruct Hg as [Hfix Hyear].
    repeat split; auto.
    + cbn. apply cycles_last.
    + cbn. apply cycles_feed. cbn. rewrite Hf, <- app_assoc. reflexivity.
  - pose proof (get_GPS_Fix_blocks w Hs Hall) as Hb.
    destruct (get_GPS_Fix true w) as [[[lat long]| |] w']; cbn in Hb; try discriminate.
    auto.
Qed.

(** C8. Scenario D: when the receiver holds a fix but reports the year 2020
    on three consecutive polls and then reports 2024, an enabled
    [get_GPS_Fix] goes through exactly three poll cycles before the cycle that
    observes 2024, and returns after that fourth cycle. *)
Theorem get_GPS_Fix_scenario_D w p1 p2 p3 p4 rest :
  sigint w = None ->
  gps_feed w = p1 :: p2 :: p3 :: p4 :: rest ->
  has_fix p1 = true -> tm_year (timestamp_utc p1) = 2020 ->
  has_fix p2 = true -> tm_year (timestamp_utc p2) = 2020 ->
  has_fix p3 = true -> tm_year (timestamp_utc p3) = 2020 ->
  has_fix p4 = true -> tm_year (timestamp_utc p4) = 2024 ->
  exists w' done,
    get_GPS_Fix true w = (Val (latitude p4, longitude p4), w') /\
    log w' = done ++ log w /\
    filter is_update (rev done) =
      [GpsUpdate true 2020; GpsUpdate true 2020; GpsUpdate true 2020; GpsUpdate true 2024] /\
    count is_sleep done = 4%nat /\
    gps_feed w' = rest.
Proof.
  intros Hs Hf F1 Y1 F2 Y2 F3 Y3 F4 Y4.
  assert (N : forall p : gps_state coord, has_fix p = true -> tm_year (timestamp_utc p) = 2020 ->
                        fix_ok p = false).
  { intros p _ Y. apply fix_ok_false. now right. }
  assert (Hg : fix_ok p4 = true).
  { apply fix_ok_true. split; auto. rewrite Y4. discriminate. }
  rewrite (get_GPS_Fix_returns w [p1; p2; p3] p4 rest Hs Hf); auto.
  eexists. eexists. split; [reflexivity|].
  split; [cbn; log_delta|].
  cbn. rewrite Hf, F1, F2, F3, F4, Y1, Y2, Y3, Y4. repeat split.
Qed.

(** ** [lightning]: the claims about an undisturbed wait *)

(** C2. For every simulated sequence of looks at the interrupt pin and the
    interrupt causes behind them, an enabled [lightning] returns exactly at the
    first read of the interrupt register that yields DISTURBER or LIGHTNING:
    no read before it was one of the two, so a NOISE read never ends the call,
    and when the sequence holds no such read the call is still waiting at its
    end.  The commands the call issued are tied to the ticks it consumed: it
    read the interrupt register once for every look at which the pin was
    high, in that order and with the cause that stood in the register; every
    such read that yielded NOISE, DISTURBER or LIGHTNING is followed by one
    [clear_statistics] before the next read and before the call returns; and
    [clear_statistics] was issued as many times as interrupts with one of the
    three causes were consumed. *)
Theorem lightning_returns_at_first_terminal_cause w :
  sigint w = None ->
  exists done consumed,
    log (snd (lightning true w)) = done ++ log w /\
    irq_feed w = consumed ++ irq_feed (snd (lightning true w)) /\
    filter is_register_read (rev done) = register_reads consumed /\
    count is_clear done = List.length (filter caused consumed) /\
    clears_follow false (rev done) = true /\
    match fst (lightning true w) with
    | Val d =>
        exists pre r post,
          irq_feed w = pre ++ PinHigh r :: post /\
          consumed = pre ++ [PinHigh r] /\
          Forall (fun u => terminal u = false) pre /\
          (interrupt_register r = DISTURBER \/ interrupt_register r = LIGHTNING) /\
          irq_feed (snd (lightning true w)) = post /\
          d = distance_to_storm r
    | Blocked =>
        consumed = irq_feed w /\
        Forall (fun u => terminal u = false) (irq_feed w)
    | Raise _ => False
    end.
Proof.
  intros Hs.
  assert (Himp : forall l, Forall (fun u => pass_ctl true u = Continue) l ->
                           Forall (fun u => terminal u = false) l).
  { intros l. apply Forall_impl. intros u. apply pass_ctl_enabled_continue. }
  destruct (first_break true (irq_feed w)) as [(pre & t & post & Hf & Hpre & Ht)|Hall].
  - rewrite (lightning_returns true w pre t post Hs Hf Hpre Ht). cbn [fst snd].
    destruct (passes_reads (pre ++ [t]) (lightning_entry w)) as (done & E & C & R & K).
    assert (Hpost : irq_feed (passes true (pre ++ [t]) (lightning_entry w)) = post).
    { apply passes_feed. cbn. rewrite Hf, <- app_assoc. reflexivity. }
    exists done, (pre ++ [t]). split; [exact E|].
    split; [rewrite Hpost, Hf, <- app_assoc; reflexivity|].
    split; [exact R|]. split; [exact K|]. split; [exact C|].
    apply pass_ctl_enabled_break in Ht. destruct Ht as (r & -> & Hr).
    exists pre, r, post. repeat split; auto.
    apply passes_last_distance.
  - rewrite (lightning_blocks true w Hs Hall). cbn [fst snd].
    destruct (passes_reads (irq_feed w) (lightning_entry w)) as (done & E & C & R & K).
    assert (Hpost : irq_feed (passes true (irq_feed w) (lightning_entry w)) = []).
    { apply passes_feed. cbn. now rewrite app_nil_r. }
    exists done, (irq_feed w). split; [exact E|].
    split; [rewrite Hpost, app_nil_r; reflexivity|].
    split; [exact R|]. split; [exact K|]. split; [exact C|]. auto.
Qed.

(** C7. When the first read that ends the wait yields DISTURBER, the value
    [lightning] returns is the [distance_to_storm] readout taken in that same
    pass, whatever it is: neither a fixed 63 nor the sentinel -1. *)
Theorem lightning_disturber_distance w pre r post :
  sigint w = None ->
  irq_feed w = pre ++ PinHigh r :: post ->
  Forall (fun u => terminal u = false) pre ->
  interrupt_register r = DISTURBER ->
  fst (lightning true w) = Val (distance_to_storm r).
Proof.
  intros Hs Hf Hpre Hr.
  rewrite (lightning_returns true w pre (PinHigh r) post Hs Hf).
  - cbn [fst]. f_equal. apply passes_last_distance.
  - revert Hpre. apply Forall_impl. intros u. apply pass_ctl_enabled_continue.
  - apply pass_ctl_enabled_break. exists r. auto.
Qed.

(** C10. When the interrupt register yields a value that is none of NOISE,
    DISTURBER and LIGHTNING, the pass of an enabled [lightning] reads the
    distance and the energy, issues no [clear_statistics], sleeps the settle
    interval, switches the indicator off and does not leave the loop: the
    loop goes on from the state the pass left, on the remaining ticks. *)
Theorem lightning_unknown_cause w r rest :
  sigint w = None ->
  irq_feed w = PinHigh r :: rest ->
  interrupt_register r <> NOISE ->
  interrupt_register r <> DISTURBER ->
  interrupt_register r <> LIGHTNING ->
  exists w1,
    lightning_pass true w = (Val Continue, w1) /\
    log w1 = [SetLed false; Sleep 500;
              ReadEnergy (lightning_energy r); ReadDistance (distance_to_storm r);
              ReadInterruptRegister (interrupt_register r); ReadPin true] ++ log w /\
    irq_feed w1 = rest /\
    lightning_loop true w = lightning_loop true w1.
Proof.
  intros Hs Hf N1 N2 N3.
  apply Z.eqb_neq in N1, N2, N3.
  exists (after_pass true (PinHigh r) w).
  rewrite (lightning_loop_step true w _ _ Hs Hf), (lightning_pass_run true w _ _ Hs Hf).
  unfold pass_ctl, after_pass, settle. cbv zeta. rewrite N1, N2, N3.
  repeat split. cbn. now rewrite Hf.
Qed.

(** C3, as the code has it. With the detector disabled, [lightning] still
    polls the interrupt pin: it returns the sentinel -1 at the first look at
    which the pin reads high, having issued nothing but reads of the pin, and
    as long as the pin reads low it keeps polling. *)
Theorem lightning_disabled_waits_for_pin w :
  sigint w = None ->
  match lightning false w with
  | (Val d, w') =>
      d = -1 /\
      exists n r post,
        irq_feed w = repeat PinLow n ++ PinHigh r :: post /\
        irq_feed w' = post /\
        log w' = ReadPin true :: repeat (ReadPin false) n ++ log w
  | (Blocked, w') =>
      exists n, irq_feed w = repeat PinLow n /\ log w' = repeat (ReadPin false) n ++ log w
  | (Raise _, _) => False
  end.
Proof.
  intros Hs.
  assert (Hlow : forall l, Forall (fun u => pass_ctl false u = Continue) l ->
                           l = repeat PinLow (List.length l)).
  { induction l as [|u l IH]; intros H; [reflexivity|].
    inversion H as [|? ? Hu Hl]; subst. apply pass_ctl_disabled_continue in Hu.
    cbn. rewrite <- IH by exact Hl. now rewrite Hu. }
  assert (Hrun : forall n (v : world coord),
             log (passes false (repeat PinLow n) v) = repeat (ReadPin false) n ++ log v /\
             distance (passes false (repeat PinLow n) v) = distance v).
  { induction n as [|n IH]; intros v; cbn [repeat passes]; [auto|].
    destruct (IH (after_pass false PinLow v)) as (L & D).
    split.
    - rewrite L. cbn. apply repeat_shift.
    - rewrite D. reflexivity. }
  destruct (first_break false (irq_feed w)) as [(pre & t & post & Hf & Hpre & Ht)|Hall].
  - rewrite (lightning_returns false w pre t post Hs Hf Hpre Ht).
    apply Hlow in Hpre. destruct t as [|r]; [discriminate|].
    rewrite passes_app. cbn [passes after_pass].
    destruct (Hrun (List.length pre) (lightning_entry w)) as (L & D).
    rewrite <- Hpre in L, D. split.
    + cbn [distance record with_as3935 with_irq_feed]. cbn in D. exact D.
    + exists (List.length pre), r, post. rewrite <- Hpre. repeat split; auto.
      * cbn [irq_feed record with_as3935 with_irq_feed].
        rewrite (passes_feed false pre (lightning_entry w) (PinHigh r :: post)); auto.
      * cbn [log record with_as3935 with_irq_feed]. rewrite L. reflexivity.
  - rewrite (lightning_blocks false w Hs Hall).
    apply Hlow in Hall. exists (List.length (irq_feed w)). split; [exact Hall|].
    destruct (Hrun (List.length (irq_feed w)) (lightning_entry w)) as (L & _).
    rewrite <- Hall in L. exact L.
Qed.

(** ** [lightning] under a Ctrl-C *)

(** C4, as the code has it. Whenever the operator's Ctrl-C arrives during
    [lightning] (it is pending before the call and delivered by its end), at
    whatever operation of the wait, the call catches it and returns a value
    instead of raising; and when the call had not yet read the distance from
    the detector, the value is the sentinel -1. *)
Theorem lightning_cancelled LS w :
  sigint w <> None ->
  sigint (snd (lightning LS w)) = None ->
  exists d,
    fst (lightning LS w) = Val d /\
    forall done,
      log (snd (lightning LS w)) = done ++ log w ->
      count is_distance_read done = 0%nat ->
      d = -1.
Proof.
  intros Hpending Hgone. rewrite lightning_enters in *.
  unfold lightning_wait, try_except, bind in *.
  pose proof (Ran_lightning_loop LS (lightning_entry w)) as [(d0 & L & D) S].
  destruct (lightning_loop LS (lightning_entry w)) as [[[]|[]|] w0];
    cbn [fst snd get] in *.
  - rewrite S in Hgone. contradiction.
  - exists (distance w0). split; [reflexivity|].
    intros done E C. cbn in E, L, D. rewrite L in E. apply app_inv_tail in E.
    subst d0. now rewrite D.
  - rewrite S in Hgone. contradiction.
Qed.

(** ** [collect]: the claims *)

(** C6. For every wait that ends at a classified event (the first read that
    yields DISTURBER or LIGHTNING), [collect] returns the five fields
    timestamp, epoch seconds, latitude, longitude and distance, in this order,
    joined by commas.  The clock is read for the timestamp only after
    [lightning] has returned: the read comes in the log right after the
    [clear_statistics] that closes the classification, at a clock age beyond
    the one at which the wait began. *)
Theorem collect_packet w pre r post :
  sigint w = None ->
  irq_feed w = pre ++ PinHigh r :: post ->
  Forall (fun u => terminal u = false) pre ->
  terminal (PinHigh r) = true ->
  exists w1 w2 done,
    lightning true w = (Val (distance_to_storm r), w1) /\
    log w1 = ClearStatistics :: done ++ log w /\
    rtc_datetime w1 = rtc_datetime w /\
    (rtc_age w < rtc_age w1)%nat /\
    let t1 := clock (rtc_datetime w1) (rtc_age w1) in
    let t2 := clock (rtc_datetime w1) (S (rtc_age w1)) in
    let packet :=
      String.concat ","
        [isoformat (localtime t1); str_int t2;
         coord_str (self_gps_lat w); coord_str (self_gps_long w);
         str_int (distance_to_storm r)] in
    collect clock localtime true w = (Val packet, w2) /\
    log w2 = Print (MsgCreated packet) :: TimeRead t2 :: TimeRead t1 :: log w1.
Proof.
  intros Hs Hf Hpre Ht.
  assert (Hpre' : Forall (fun u => pass_ctl true u = Continue) pre).
  { revert Hpre. apply Forall_impl. intros u. apply pass_ctl_enabled_continue. }
  assert (Ht' : pass_ctl true (PinHigh r) = Break).
  { rewrite pass_ctl_enabled, Ht. reflexivity. }
  pose proof (lightning_returns true w pre (PinHigh r) post Hs Hf Hpre' Ht') as Hl.
  rewrite passes_last_distance in Hl.
  set (w1 := passes true (pre ++ [PinHigh r]) (lightning_entry w)) in *.
  assert (Hs1 : sigint w1 = None) by (unfold w1; rewrite passes_sigint; exact Hs).
  destruct (passes_frame true (pre ++ [PinHigh r]) (lightning_entry w))
    as (R & A & La & Lo). fold w1 in R, A, La, Lo. cbn in R, La, Lo.
  rewrite length_app in A. cbn in A.
  assert (Hlog : exists done, log w1 = ClearStatistics :: done ++ log w).
  { unfold w1. rewrite passes_app. cbn [passes].
    destruct (after_pass_terminal_log r (passes true pre (lightning_entry w)) Ht)
      as (d2 & E2).
    destruct (passes_clears pre (lightning_entry w)) as (d1 & E1 & _).
    exists (d2 ++ d1). rewrite E2, E1. cbn. now rewrite <- app_assoc. }
  destruct Hlog as (done & Hlog).
  pose proof (collect_after true w _ w1 Hl Hs1) as Hc. cbv zeta in Hc.
  eexists w1, _, done. split; [exact Hl|]. split; [exact Hlog|].
  split; [exact R|]. split; [lia|]. cbv zeta.
  rewrite Hc, La, Lo. split; reflexivity.
Qed.

(** * Beyond the claims *)

(** ** What a piece of code leaves alone, however it ends *)

Section RespectsLemmas.

Variable R : world coord -> world coord -> Prop.
Hypothesis R_refl : forall w, R w w.
Hypothesis R_trans : forall w1 w2 w3, R w1 w2 -> R w2 w3 -> R w1 w3.
Hypothesis R_deliver : forall w, R w (deliver w).
Hypothesis R_record : forall a w, R w (record a w).
Hypothesis R_irq_feed : forall f w, R w (with_irq_feed f w).
Hypothesis R_as3935 : forall r w, R w (with_as3935 r w).
Hypothesis R_distance : forall d w, R w (with_distance d w).
Hypothesis R_i : forall n w, R w (with_i n w).
Hypothesis R_gps : forall g f w, R w (with_gps g f w).
Hypothesis R_check_y : forall y w, R w (with_check_y y w).

Lemma Respects_ret {A} (a : A) : Respects R (ret (coord := coord) a).
Proof. intros w. apply R_refl. Qed.

Lemma Respects_get {A} (f : world coord -> A) : Respects R (get f).
Proof. intros w. apply R_refl. Qed.

Lemma Respects_bind {A B} (m : M coord A) (k : A -> M coord B) :
  Respects R m -> (forall a, Respects R (k a)) -> Respects R (bind m k).
Proof.
  intros Hm Hk w. unfold bind. specialize (Hm w).
  destruct (m w) as [[a|e|] w1]; cbn [snd] in *; try exact Hm.
  eapply R_trans; [exact Hm|apply Hk].
Qed.

Lemma Respects_interruptible {A} (m : M coord A) :
  Respects R m -> Respects R (interruptible m).
Proof.
  intros Hm w. unfold interruptible. destruct (sigint w) as [n|].
  - destruct (Nat.eqb n (steps w)); [apply R_deliver|apply Hm].
  - apply Hm.
Qed.

Lemma Respects_op a : Respects R (op (coord := coord) a).
Proof. apply Respects_interruptible. intros w. apply R_record. Qed.

Lemma Respects_try_except {A} (body handler : M coord A) :
  Respects R body -> Respects R handler -> Respects R (try_except body handler).
Proof.
  intros Hb Hh w. unfold try_except. specialize (Hb w).
  destruct (body w) as [[a|[]|] w1]; cbn [snd] in *; try exact Hb.
  eapply R_trans; [exact Hb|apply Hh].
Qed.

Lemma Respects_while fuel (cond : M coord bool) (body : M coord ctl) :
  Respects R cond -> Respects R body -> Respects R (while_ fuel cond body).
Proof.
  intros Hc Hb. induction fuel as [|fuel IH].
  - intros w. apply R_refl.
  - cbn [while_]. apply Respects_bind; [exact Hc|]. intros [|]; [|apply Respects_ret].
    apply Respects_bind; [exact Hb|]. intros [|]; [exact IH|apply Respects_ret].
Qed.

Lemma Respects_pin_value : Respects R (pin_value (coord := coord)).
Proof.
  apply Respects_interruptible. intros w. destruct (irq_feed w) as [|[|r] f]; cbn [snd].
  - apply R_refl.
  - eapply R_trans; [apply R_irq_feed|apply R_record].
  - eapply R_trans; [apply R_irq_feed|]. eapply R_trans; [apply R_as3935|apply R_record].
Qed.

Lemma Respects_lightning_pass LS : Respects R (lightning_pass (coord := coord) LS).
Proof.
  unfold lightning_pass.
  apply Respects_bind; [apply Respects_pin_value|]. intros [|]; [|apply Respects_ret].
  destruct LS; [|apply Respects_ret].
  apply Respects_bind.
  { apply Respects_interruptible. intros w. apply R_record. }
  intros v. apply Respects_bind.
  { apply Respects_interruptible. intros w. apply R_record. }
  intros d. apply Respects_bind; [intros w; apply R_distance|]. intros _.
  apply Respects_bind.
  { apply Respects_interruptible. intros w. apply R_record. }
  intros _. apply Respects_bind.
  - destruct (v =? NOISE).
    { repeat (apply Respects_bind; [apply Respects_op|intros _]). apply Respects_ret. }
    destruct (v =? DISTURBER).
    { apply Respects_bind; [apply Respects_get|]. intros i.
      apply Respects_bind; [intros w; apply R_i|]. intros _.
      repeat (apply Respects_bind; [apply Respects_op|intros _]). apply Respects_ret. }
    destruct (v =? LIGHTNING).
    { repeat (apply Respects_bind; [apply Respects_op|intros _]). apply Respects_ret. }
    apply Respects_ret.
  - intros [|]; [|apply Respects_ret].
    repeat (apply Respects_bind; [apply Respects_op|intros _]). apply Respects_ret.
Qed.

Lemma Respects_lightning LS : Respects R (lightning (coord := coord) LS).
Proof.
  unfold lightning.
  apply Respects_bind; [intros w; apply R_distance|]. intros _.
  apply Respects_bind; [|intros _; apply Respects_get].
  apply Respects_try_except; [|apply Respects_ret].
  apply Respects_bind; [intros w; apply R_i|]. intros _.
  unfold lightning_loop. apply Respects_bind; [apply Respects_get|]. intros fuel.
  apply Respects_while; [apply Respects_ret|apply Respects_lightning_pass].
Qed.

Lemma Respects_time_time : Respects R (time_time (coord := coord) clock).
Proof. apply Respects_interruptible. intros w. apply R_record. Qed.

Lemma Respects_collect LS : Respects R (collect clock localtime LS).
Proof.
  unfold collect, timestamp.
  apply Respects_bind; [apply Respects_lightning|]. intros stk.
  apply Respects_bind.
  { apply Respects_bind; [apply Respects_time_time|]. intros t. apply Respects_ret. }
  intros t_stmp. apply Respects_bind; [apply Respects_time_time|]. intros t_int.
  apply Respects_bind; [apply Respects_get|]. intros lat.
  apply Respects_bind; [apply Respects_get|]. intros long.
  apply Respects_bind; [apply Respects_op|]. intros _. apply Respects_ret.
Qed.

Lemma Respects_gps_wait : Respects R (gps_wait (coord := coord)).
Proof.
  unfold gps_wait. apply Respects_bind; [apply Respects_get|]. intros fuel.
  apply Respects_while.
  - unfold gps_cond. repeat (apply Respects_bind; [apply Respects_get|intros ?]).
    apply Respects_ret.
  - unfold gps_cycle. apply Respects_bind; [apply Respects_op|]. intros _.
    apply Respects_bind.
    { apply Respects_interruptible. intros w. destruct (gps_feed w) as [|g f]; cbn [snd].
      - apply R_refl.
      - eapply R_trans; [apply R_gps|apply R_record]. }
    intros _. apply Respects_bind; [apply Respects_get|]. intros y.
    apply Respects_bind; [intros w; apply R_check_y|]. intros _.
    apply Respects_bind; [apply Respects_op|]. intros _. apply Respects_ret.
Qed.

Lemma Unless_bind {A B} (m : M coord A) (k : A -> M coord B) :
  Respects R m -> (forall a, Unless R (k a)) -> Unless R (bind m k).
Proof.
  intros Hm Hk w. unfold bind. specialize (Hm w).
  destruct (m w) as [[a|e|] w1]; cbn [fst snd] in *; try exact Hm.
  specialize (Hk a w1). destruct (fst (k a w1)); auto; eapply R_trans; eauto.
Qed.

End RespectsLemmas.

Lemma same_station_refl w : same_station w w.
Proof. repeat split. Qed.

Lemma same_station_trans w1 w2 w3 :
  same_station w1 w2 -> same_station w2 w3 -> same_station w1 w3.
Proof.
  intros (A1 & B1 & C1 & D1 & E1) (A2 & B2 & C2 & D2 & E2).
  repeat split; congruence.
Qed.

Lemma lightning_same_station LS w : same_station w (snd (lightning LS w)).
Proof.
  apply (Respects_lightning same_station same_station_refl same_station_trans);
    intros; repeat split.
Qed.

Lemma collect_same_station LS w :
  same_station w (snd (collect clock localtime LS w)).
Proof.
  apply (Respects_collect same_station same_station_refl same_station_trans);
    intros; repeat split.
Qed.

(** ** [get_GPS_Fix]: more of what the code shows *)

Lemma cycles_counts l : forall w,
  exists d, log (cycles l w) = d ++ log w /\
            count is_update d = List.length l /\
            count is_sleep d = List.length l /\
            count is_rtc_write d = 0%nat.
Proof.
  induction l as [|g l IH]; intros w; cbn [cycles List.length].
  - exists []. repeat split.
  - destruct (IH (after_cycle g w)) as (d & L & U & S & W).
    exists (d ++ [Sleep 1000; GpsUpdate (has_fix g) (tm_year (timestamp_utc g));
                  Print MsgWaitingForFix]).
    rewrite !count_app, U, S, W. repeat split; try (cbn; lia).
    rewrite L. cbn. now rewrite <- app_assoc.
Qed.

Lemma not_fix_ok_all (l : list (gps_state coord)) :
  Forall (fun q => has_fix q = false \/ tm_year (timestamp_utc q) = 2020) l ->
  Forall (fun q => fix_ok q = false) l.
Proof. apply Forall_impl. intros q. apply fix_ok_false. Qed.

Lemma cycles_sleeps l : forall w,
  exists d, log (cycles l w) = d ++ log w /\
            count is_update d = List.length l /\
            count (sleeps_for 1000) d = List.length l /\
            count is_sleep d = List.length l.
Proof.
  induction l as [|g l IH]; intros w; cbn [cycles List.length].
  - exists []. repeat split.
  - destruct (IH (after_cycle g w)) as (d & L & U & S1 & S).
    exists (d ++ [Sleep 1000; GpsUpdate (has_fix g) (tm_year (timestamp_utc g));
                  Print MsgWaitingForFix]).
    rewrite !count_app, U, S1, S. repeat split; try (cbn; lia).
    rewrite L. cbn. now rewrite <- app_assoc.
Qed.

(** X1. An enabled [get_GPS_Fix] goes through one update-and-sleep cycle per
    poll up to and including the first poll that holds a fix with a year other
    than 2020: as many [update()] calls as sleeps, one more than the polls it
    had to reject, and every sleep of the call is a [sleep(1)].  Because
    [check_y] starts at 2020 this is at least one cycle, whatever the receiver
    reported before the call. *)
Theorem get_GPS_Fix_cycle_count w pre g post :
  sigint w = None ->
  gps_feed w = pre ++ g :: post ->
  Forall (fun q => has_fix q = false \/ tm_year (timestamp_utc q) = 2020) pre ->
  has_fix g = true ->
  tm_year (timestamp_utc g) <> 2020 ->
  exists w' done,
    get_GPS_Fix true w = (Val (latitude g, longitude g), w') /\
    log w' = done ++ log w /\
    count is_update done = S (List.length pre) /\
    count (sleeps_for 1000) done = S (List.length pre) /\
    count is_sleep done = S (List.length pre).
Proof.
  intros Hs Hf Hpre Hfix Hyear.
  assert (Hg : fix_ok g = true) by (apply fix_ok_true; auto).
  rewrite (get_GPS_Fix_returns w pre g post Hs Hf (not_fix_ok_all pre Hpre) Hg).
  destruct (cycles_sleeps (pre ++ [g]) (gps_entry w)) as (d & L & U & S1 & S).
  rewrite length_app in U, S1, S. cbn [List.length] in U, S1, S.
  eexists. exists (RtcWrite (fix_time g) :: Print MsgGotFix :: d ++
                   [GpsCommand "PMTK220,1000";
                    GpsCommand "PMTK314,0,1,0,1,0,0,0,0,0,0,0,0,0,0,0,0,0,0,0";
                    GpsOpen; GpsEnable true]).
  split; [reflexivity|]. split.
  - cbn. rewrite L, cycles_last. cbn. now rewrite <- app_assoc.
  - change (RtcWrite (fix_time g) :: Print MsgGotFix :: d ++ ?l)
      with ([RtcWrite (fix_time g); Print MsgGotFix] ++ d ++ l).
    rewrite !count_app, U, S1, S. cbn. repeat split; lia.
Qed.

(** X2. When an enabled [get_GPS_Fix] returns, the calendar it has written to
    the real-time clock is the one of the very poll whose coordinates it
    returns, with the daylight-saving field set to -1; its year is therefore
    never 2020.  The write is the last command of the call and the only write
    to the clock. *)
Theorem get_GPS_Fix_sets_clock_from_fix w pre g post :
  sigint w = None ->
  gps_feed w = pre ++ g :: post ->
  Forall (fun q => has_fix q = false \/ tm_year (timestamp_utc q) = 2020) pre ->
  has_fix g = true ->
  tm_year (timestamp_utc g) <> 2020 ->
  exists w' done,
    get_GPS_Fix true w = (Val (latitude g, longitude g), w') /\
    rtc_datetime w' = fix_time g /\
    tm_year (rtc_datetime w') = tm_year (timestamp_utc g) /\
    tm_year (rtc_datetime w') <> 2020 /\
    tm_isdst (rtc_datetime w') = -1 /\
    log w' = RtcWrite (fix_time g) :: done ++ log w /\
    count is_rtc_write done = 0%nat.
Proof.
  intros Hs Hf Hpre Hfix Hyear.
  assert (Hg : fix_ok g = true) by (apply fix_ok_true; auto).
  rewrite (get_GPS_Fix_returns w pre g post Hs Hf (not_fix_ok_all pre Hpre) Hg).
  destruct (cycles_counts (pre ++ [g]) (gps_entry w)) as (d & L & _ & _ & W).
  eexists. exists (Print MsgGotFix :: d ++
                   [GpsCommand "PMTK220,1000";
                    GpsCommand "PMTK314,0,1,0,1,0,0,0,0,0,0,0,0,0,0,0,0,0,0,0";
                    GpsOpen; GpsEnable true]).
  split; [reflexivity|].
  assert (Hm := cycles_last pre g (gps_entry w)).
  cbn [gps_exit rtc_datetime record with_rtc log gps_module]. rewrite Hm.
  repeat split; auto.
  - rewrite L. cbn. now rewrite <- app_assoc.
  - change (Print MsgGotFix :: d ++ ?l) with ([Print MsgGotFix] ++ d ++ l).
    rewrite !count_app, W. reflexivity.
Qed.

(** *** A Ctrl-C during the fix *)

Lemma Ran_modify_quiet (f : world coord -> world coord) :
  (forall w, log (f w) = log w /\ distance (f w) = distance w /\ sigint (f w) = sigint w) ->
  Ran (modify f).
Proof.
  intros H w. destruct (H w) as (L & D & S). split; [|exact S].
  exists []. split; [exact L|intros _; exact D].
Qed.

Lemma Ran_gps_update : Ran (gps_update (coord := coord)).
Proof.
  apply Ran_interruptible. intros w. destruct (gps_feed w) as [|g f].
  - split; [apply quiet_refl|reflexivity].
  - split; [|reflexivity]. eexists [_]. split; reflexivity.
Qed.

Lemma Ran_rtc_write t : Ran (rtc_write (coord := coord) t).
Proof.
  apply Ran_interruptible. intros w. split; [|reflexivity].
  eexists [_]. split; reflexivity.
Qed.

Lemma Ran_gps_wait : Ran (gps_wait (coord := coord)).
Proof.
  unfold gps_wait. apply Ran_bind; [apply Ran_get|]. intros fuel.
  apply Ran_while.
  - unfold gps_cond. repeat (apply Ran_bind; [apply Ran_get|intros ?]). apply Ran_ret.
  - unfold gps_cycle. apply Ran_bind; [apply Ran_op|]. intros _.
    apply Ran_bind; [apply Ran_gps_update|]. intros _.
    apply Ran_bind; [apply Ran_get|]. intros y.
    apply Ran_bind; [apply Ran_modify_quiet; intros; repeat split|]. intros _.
    apply Ran_bind; [apply Ran_op|]. intros _. apply Ran_ret.
Qed.

Lemma Ran_get_GPS_Fix GPS : Ran (get_GPS_Fix (coord := coord) GPS).
Proof.
  unfold get_GPS_Fix. destruct GPS; [|apply Ran_ret].
  do 4 (apply Ran_bind; [apply Ran_op|intros _]).
  apply Ran_bind; [apply Ran_modify_quiet; intros; repeat split|]. intros _.
  apply Ran_bind; [apply Ran_gps_wait|]. intros _.
  apply Ran_bind; [apply Ran_op|]. intros _.
  do 3 (apply Ran_bind; [apply Ran_get|intros ?]).
  apply Ran_bind; [apply Ran_rtc_write|]. intros _. apply Ran_ret.
Qed.

Lemma same_clock_trans (w1 w2 w3 : world coord) :
  same_clock w1 w2 -> same_clock w2 w3 -> same_clock w1 w3.
Proof. unfold same_clock. congruence. Qed.

Lemma get_GPS_Fix_clock_unless : Unless same_clock (get_GPS_Fix (coord := coord) true).
Proof.
  assert (Hrefl : forall w : world coord, same_clock w w) by reflexivity.
  assert (Hop : forall a, Respects same_clock (op (coord := coord) a)).
  { intros a. apply Respects_op; auto; reflexivity. }
  assert (Hget : forall A (f : world coord -> A), Respects same_clock (get f)).
  { intros A f. apply Respects_get; auto. }
  unfold get_GPS_Fix.
  do 4 (apply Unless_bind; [exact same_clock_trans|apply Hop|intros _]).
  apply Unless_bind; [exact same_clock_trans|intros w; reflexivity|intros _].
  apply Unless_bind; [exact same_clock_trans| |intros _].
  { apply (Respects_gps_wait same_clock Hrefl same_clock_trans); intros; reflexivity. }
  apply Unless_bind; [exact same_clock_trans|apply Hop|intros _].
  do 3 (apply Unless_bind; [exact same_clock_trans|apply Hget|intros ?]).
  intros w. unfold bind, rtc_write, interruptible.
  destruct (sigint w) as [n|]; [destruct (Nat.eqb n (steps w))|]; cbn; auto.
  reflexivity.
Qed.

(** X3. [get_GPS_Fix] has no handler of its own: when the operator's Ctrl-C
    arrives during an enabled call, at whatever operation, the call ends with
    [KeyboardInterrupt] instead of coordinates, and the real-time clock still
    holds the calendar it held before the call. *)
Theorem get_GPS_Fix_propagates_ctrl_c w :
  sigint w <> None ->
  sigint (snd (get_GPS_Fix true w)) = None ->
  fst (get_GPS_Fix true w) = Raise KeyboardInterrupt /\
  rtc_datetime (snd (get_GPS_Fix true w)) = rtc_datetime w.
Proof.
  intros Hpending Hgone.
  pose proof (Ran_get_GPS_Fix true w) as [_ S].
  pose proof (get_GPS_Fix_clock_unless w) as U.
  destruct (fst (get_GPS_Fix true w)) as [x|[]|].
  - rewrite S in Hgone. contradiction.
  - split; [reflexivity|exact U].
  - rewrite S in Hgone. contradiction.
Qed.

(** ** [lightning] and [collect]: what they leave alone *)

(** X7. However a call of [lightning] or of [collect] ends, and wherever a
    Ctrl-C falls in it, the call leaves alone what the fix acquisition
    established: the calendar written to the real-time clock, the stored
    coordinates [self.gps_lat] and [self.gps_long], and the receiver (no
    further poll is made). *)
Theorem wait_leaves_station_alone LS w :
  same_station w (snd (lightning LS w)) /\
  same_station w (snd (collect clock localtime LS w)).
Proof. split; [apply lightning_same_station|apply collect_same_station]. Qed.

(** ** [lightning]: the indicator, the counter and the settle sleeps *)

Lemma terminal_all_continue (l : list tick) :
  Forall (fun u => terminal u = false) l ->
  Forall (fun u => pass_ctl true u = Continue) l.
Proof. apply Forall_impl. intros u. apply pass_ctl_enabled_continue. Qed.

Lemma after_pass_lightning_log r w :
  interrupt_register r = LIGHTNING ->
  log (after_pass true (PinHigh r) w) =
    [ClearStatistics; Print (MsgLightning (distance_to_storm r)); SetLed true;
     ReadEnergy (lightning_energy r); ReadDistance (distance_to_storm r);
     ReadInterruptRegister (interrupt_register r); ReadPin true] ++ log w.
Proof. intros E. unfold after_pass. cbv zeta. rewrite E. reflexivity. Qed.

Lemma after_pass_disturber_log r w :
  interrupt_register r = DISTURBER ->
  log (after_pass true (PinHigh r) w) =
    [ClearStatistics; Print (MsgDisturber (i_count w + 1) (distance_to_storm r));
     ReadEnergy (lightning_energy r); ReadDistance (distance_to_storm r);
     ReadInterruptRegister (interrupt_register r); ReadPin true] ++ log w.
Proof. intros E. unfold after_pass. cbv zeta. rewrite E. reflexivity. Qed.

Lemma after_pass_continue_counts t w :
  pass_ctl true t = Continue ->
  i_count (after_pass true t w) = i_count w /\
  exists d, log (after_pass true t w) = d ++ log w /\
            count is_sleep d = (if is_high t then 1 else 0)%nat /\
            count is_pin_read d = 1%nat.
Proof.
  unfold pass_ctl, after_pass, settle. destruct t as [|r].
  - intros _. split; [reflexivity|]. eexists. split; [cbn; log_delta|]. split; reflexivity.
  - cbv zeta. destruct (interrupt_register r =? NOISE).
    { intros _. split; [reflexivity|]. eexists. split; [cbn; log_delta|]. split; reflexivity. }
    destruct (interrupt_register r =? DISTURBER); [discriminate|].
    destruct (interrupt_register r =? LIGHTNING); [discriminate|].
    intros _. split; [reflexivity|]. eexists. split; [cbn; log_delta|]. split; reflexivity.
Qed.

Lemma passes_continue_counts pre : forall w,
  Forall (fun u => pass_ctl true u = Continue) pre ->
  i_count (passes true pre w) = i_count w /\
  exists d, log (passes true pre w) = d ++ log w /\
            count is_sleep d = List.length (filter is_high pre) /\
            count is_pin_read d = List.length pre.
Proof.
  induction pre as [|t pre IH]; intros w H; cbn [passes].
  - split; [reflexivity|]. exists []. repeat split.
  - inversion H as [|? ? Ht Hpre]; subst.
    destruct (after_pass_continue_counts t w Ht) as (I1 & d1 & L1 & S1 & P1).
    destruct (IH (after_pass true t w) Hpre) as (I2 & d2 & L2 & S2 & P2).
    split; [congruence|]. exists (d2 ++ d1). rewrite !count_app, S1, S2, P1, P2.
    split; [rewrite L2, L1; apply app_assoc|].
    cbn [filter List.length]. destruct (is_high t); cbn [List.length]; split; lia.
Qed.

(** X4. When the wait of an enabled [lightning] ends at a LIGHTNING read, the
    indicator LED is on when the call returns: the pass switches it on and
    leaves through [break] before the line that switches it off. *)
Theorem lightning_strike_leaves_indicator_on w pre r post :
  sigint w = None ->
  irq_feed w = pre ++ PinHigh r :: post ->
  Forall (fun u => terminal u = false) pre ->
  interrupt_register r = LIGHTNING ->
  fst (lightning true w) = Val (distance_to_storm r) /\
  indicator (log (snd (lightning true w))) = Some true.
Proof.
  intros Hs Hf Hpre Hr.
  rewrite (lightning_returns true w pre (PinHigh r) post Hs Hf (terminal_all_continue pre Hpre)).
  - cbn [fst snd]. rewrite passes_last_distance. split; [reflexivity|].
    rewrite passes_app. cbn [passes]. rewrite after_pass_lightning_log by exact Hr.
    reflexivity.
  - apply pass_ctl_enabled_break. exists r. auto.
Qed.

(** X5. The disturber counter [i] is set to 0 at every call and a DISTURBER
    read ends the call at once, so the number printed with a disturber is
    always 1, whatever happened in earlier calls and however many NOISE passes
    came before. *)
Theorem lightning_disturber_number_is_one w pre r post :
  sigint w = None ->
  irq_feed w = pre ++ PinHigh r :: post ->
  Forall (fun u => terminal u = false) pre ->
  interrupt_register r = DISTURBER ->
  exists done,
    log (snd (lightning true w)) =
      ClearStatistics :: Print (MsgDisturber 1 (distance_to_storm r)) :: done ++ log w.
Proof.
  intros Hs Hf Hpre Hr.
  pose proof (terminal_all_continue pre Hpre) as Hc.
  rewrite (lightning_returns true w pre (PinHigh r) post Hs Hf Hc).
  - cbn [snd]. rewrite passes_app. cbn [passes].
    rewrite after_pass_disturber_log by exact Hr.
    destruct (passes_continue_counts pre (lightning_entry w) Hc) as (I & d & L & _ & _).
    rewrite I, L. cbn [lightning_entry i_count with_i with_distance log].
    exists ([ReadEnergy (lightning_energy r); ReadDistance (distance_to_storm r);
             ReadInterruptRegister (interrupt_register r); ReadPin true] ++ d).
    reflexivity.
  - apply pass_ctl_enabled_break. exists r. auto.
Qed.

Lemma after_pass_continue_sleeps t w :
  pass_ctl true t = Continue ->
  exists d, log (after_pass true t w) = d ++ log w /\
            count (sleeps_for 500) d = (if is_high t then 1 else 0)%nat /\
            count is_sleep d = (if is_high t then 1 else 0)%nat /\
            count is_pin_read d = 1%nat.
Proof.
  unfold pass_ctl, after_pass, settle. destruct t as [|r].
  - intros _. eexists. split; [cbn; log_delta|]. repeat split.
  - cbv zeta. destruct (interrupt_register r =? NOISE).
    { intros _. eexists. split; [cbn; log_delta|]. repeat split. }
    destruct (interrupt_register r =? DISTURBER); [discriminate|].
    destruct (interrupt_register r =? LIGHTNING); [discriminate|].
    intros _. eexists. split; [cbn; log_delta|]. repeat split.
Qed.

Lemma passes_continue_sleeps pre : forall w,
  Forall (fun u => pass_ctl true u = Continue) pre ->
  exists d, log (passes true pre w) = d ++ log w /\
            count (sleeps_for 500) d = List.length (filter is_high pre) /\
            count is_sleep d = List.length (filter is_high pre) /\
            count is_pin_read d = List.length pre.
Proof.
  induction pre as [|t pre IH]; intros w H; cbn [passes].
  - exists []. repeat split.
  - inversion H as [|? ? Ht Hpre]; subst.
    destruct (after_pass_continue_sleeps t w Ht) as (d1 & L1 & H1 & S1 & P1).
    destruct (IH (after_pass true t w) Hpre) as (d2 & L2 & H2 & S2 & P2).
    exists (d2 ++ d1). rewrite !count_app, H1, H2, S1, S2, P1, P2.
    split; [rewrite L2, L1; apply app_assoc|].
    cbn [filter List.length]. destruct (is_high t); cbn [List.length]; repeat split; lia.
Qed.

(** X6. An enabled [lightning] reads the pin once per tick and sleeps once,
    for the half-second settle interval, per interrupt it absorbs (a high pin
    whose cause does not end the wait): these are all the sleeps of the call,
    so polls of a low pin and the pass that ends the wait do not sleep. *)
Theorem lightning_sleeps_once_per_absorbed_interrupt w pre r post :
  sigint w = None ->
  irq_feed w = pre ++ PinHigh r :: post ->
  Forall (fun u => terminal u = false) pre ->
  terminal (PinHigh r) = true ->
  exists done,
    log (snd (lightning true w)) = done ++ log w /\
    count (sleeps_for 500) done = List.length (filter is_high pre) /\
    count is_sleep done = List.length (filter is_high pre) /\
    count is_pin_read done = S (List.length pre).
Proof.
  intros Hs Hf Hpre Hr.
  pose proof (terminal_all_continue pre Hpre) as Hc.
  assert (Hb : pass_ctl true (PinHigh r) = Break) by (rewrite pass_ctl_enabled, Hr; reflexivity).
  rewrite (lightning_returns true w pre (PinHigh r) post Hs Hf Hc Hb).
  cbn [snd]. rewrite passes_app. cbn [passes].
  destruct (passes_continue_sleeps pre (lightning_entry w) Hc) as (d & L & H5 & S & P).
  apply pass_ctl_enabled_break in Hb. destruct Hb as (r' & [= <-] & [E|E]).
  - rewrite after_pass_disturber_log by exact E. rewrite L.
    eexists. split; [rewrite app_assoc; reflexivity|].
    rewrite !count_app, H5, S, P. cbn. repeat split; lia.
  - rewrite after_pass_lightning_log by exact E. rewrite L.
    eexists. split; [rewrite app_assoc; reflexivity|].
    rewrite !count_app, H5, S, P. cbn. repeat split; lia.
Qed.

(** ** The value [lightning] returns under a Ctrl-C *)

Lemma tracks_refl w : tracks w w.
Proof. exists []. split; reflexivity. Qed.

Lemma latest_distance_app l2 : forall l1 d0,
  latest_distance (l2 ++ l1) d0 = latest_distance l2 (latest_distance l1 d0).
Proof. induction l2 as [|a l2 IH]; intros; cbn; [reflexivity|]. destruct a; auto. Qed.

Lemma tracks_trans w1 w2 w3 : tracks w1 w2 -> tracks w2 w3 -> tracks w1 w3.
Proof.
  intros (d1 & L1 & D1) (d2 & L2 & D2). exists (d2 ++ d1). split.
  - rewrite L2, L1. apply app_assoc.
  - rewrite latest_distance_app, <- D1. exact D2.
Qed.

Lemma tracks_deliver w : tracks w (deliver w).
Proof. exists []. split; reflexivity. Qed.

Lemma tracks_bind {A B} (m : M coord A) (k : A -> M coord B) :
  Respects tracks m -> (forall a, Respects tracks (k a)) -> Respects tracks (bind m k).
Proof. apply Respects_bind. exact tracks_trans. Qed.

Lemma tracks_ret {A} (a : A) : Respects tracks (ret (coord := coord) a).
Proof. apply Respects_ret. exact tracks_refl. Qed.

Lemma tracks_op a : is_distance_read a = false -> Respects tracks (op (coord := coord) a).
Proof.
  intros Ha. apply Respects_interruptible; [exact tracks_deliver|].
  intros w. exists [a]. split; [reflexivity|]. destruct a; try discriminate; reflexivity.
Qed.

Lemma tracks_pin_value : Respects tracks (pin_value (coord := coord)).
Proof.
  apply Respects_interruptible; [exact tracks_deliver|].
  intros w. destruct (irq_feed w) as [|[|r] f]; cbn [snd].
  - apply tracks_refl.
  - exists [ReadPin false]. split; reflexivity.
  - exists [ReadPin true]. split; reflexivity.
Qed.

Lemma tracks_assign_distance {B} (k : Z -> unit -> M coord B) :
  (forall d u, Respects tracks (k d u)) ->
  Respects tracks (bind read_distance_to_storm (fun d => bind (modify (with_distance d)) (k d))).
Proof.
  intros Hk w. unfold bind at 1. unfold read_distance_to_storm, interruptible.
  assert (Hgo : tracks w (snd (bind (modify (with_distance (distance_to_storm (as3935 w))))
                                    (k (distance_to_storm (as3935 w)))
                                    (record (ReadDistance (distance_to_storm (as3935 w))) w)))).
  { rewrite bind_modify. eapply tracks_trans; [|apply Hk].
    exists [ReadDistance (distance_to_storm (as3935 w))]. split; reflexivity. }
  destruct (sigint w) as [n|]; [destruct (Nat.eqb n (steps w))|].
  - apply tracks_deliver.
  - exact Hgo.
  - exact Hgo.
Qed.

Lemma tracks_lightning_pass LS : Respects tracks (lightning_pass (coord := coord) LS).
Proof.
  unfold lightning_pass.
  apply tracks_bind; [apply tracks_pin_value|]. intros [|]; [|apply tracks_ret].
  destruct LS; [|apply tracks_ret].
  apply tracks_bind.
  { apply Respects_interruptible; [exact tracks_deliver|].
    intros w. eexists [_]. split; reflexivity. }
  intros v. apply tracks_assign_distance. intros d _.
  apply tracks_bind.
  { apply Respects_interruptible; [exact tracks_deliver|].
    intros w. eexists [_]. split; reflexivity. }
  intros _. apply tracks_bind.
  - destruct (v =? NOISE).
    { repeat (apply tracks_bind; [apply tracks_op; reflexivity|intros _]). apply tracks_ret. }
    destruct (v =? DISTURBER).
    { apply tracks_bind; [apply Respects_get; exact tracks_refl|]. intros i.
      apply tracks_bind; [intros w; exists []; split; reflexivity|]. intros _.
      repeat (apply tracks_bind; [apply tracks_op; reflexivity|intros _]). apply tracks_ret. }
    destruct (v =? LIGHTNING).
    { repeat (apply tracks_bind; [apply tracks_op; reflexivity|intros _]). apply tracks_ret. }
    apply tracks_ret.
  - intros [|]; [|apply tracks_ret].
    repeat (apply tracks_bind; [apply tracks_op; reflexivity|intros _]). apply tracks_ret.
Qed.

Lemma tracks_lightning_wait LS : Respects tracks (lightning_wait (coord := coord) LS).
Proof.
  unfold lightning_wait.
  apply tracks_bind; [|intros _; apply Respects_get; exact tracks_refl].
  apply Respects_try_except; [exact tracks_trans| |apply tracks_ret].
  unfold lightning_loop. apply tracks_bind; [apply Respects_get; exact tracks_refl|].
  intros fuel. apply Respects_while;
    [exact tracks_refl|exact tracks_trans|apply tracks_ret|apply tracks_lightning_pass].
Qed.

Lemma lightning_value LS w d w' : lightning LS w = (Val d, w') -> d = distance w'.
Proof.
  rewrite lightning_enters. unfold lightning_wait. intros H.
  apply bind_val_inv in H. destruct H as ([] & w1 & _ & H).
  cbn in H. now injection H as <- <-.
Qed.

(** ** [collect] and the Ctrl-C *)

Lemma lightning_cancelled_run LS w :
  sigint w <> None ->
  sigint (snd (lightning LS w)) = None ->
  exists d, lightning LS w = (Val d, snd (lightning LS w)).
Proof.
  intros Hpending Hgone. rewrite lightning_enters in *.
  unfold lightning_wait, try_except, bind in *.
  pose proof (Ran_lightning_loop LS (lightning_entry w)) as [_ S].
  destruct (lightning_loop LS (lightning_entry w)) as [[[]|[]|] w0];
    cbn [fst snd get] in *.
  - rewrite S in Hgone. contradiction.
  - eexists. reflexivity.
  - rewrite S in Hgone. contradiction.
Qed.

(** X12. When the operator's Ctrl-C arrives during [lightning], at whatever
    operation, the value returned is the local [distance] as it stands: the
    distance most recently read from the detector during this call, whether
    the cause read with it was noise or anything else, and -1 only when the
    call has read no distance yet. *)
Theorem lightning_cancelled_returns_latest_readout LS w :
  sigint w <> None ->
  sigint (snd (lightning LS w)) = None ->
  exists done,
    log (snd (lightning LS w)) = done ++ log w /\
    fst (lightning LS w) = Val (latest_distance done (-1)).
Proof.
  intros Hpending Hgone.
  destruct (lightning_cancelled_run LS w Hpending Hgone) as (d & Hl).
  pose proof (lightning_value LS w d _ Hl) as Hd.
  pose proof (tracks_lightning_wait LS (lightning_entry w)) as (done & L & D).
  rewrite <- lightning_enters in L, D.
  change (log (lightning_entry w)) with (log w) in L.
  change (distance (lightning_entry w)) with (-1) in D.
  exists done. split; [exact L|]. rewrite <- D, <- Hd, Hl. reflexivity.
Qed.

(** X8. The wait swallows the Ctrl-C, so [collect] goes on: when the Ctrl-C
    arrives during the wait, [collect] still reads the clock twice and prints
    and returns a packet.  The packet is made of the timestamp and the epoch
    of these two reads, the stored coordinates and the value [lightning]
    returned; the two reads and the print are the commands that follow the
    wait in the log. *)
Theorem collect_survives_cancelled_wait LS w :
  sigint w <> None ->
  sigint (snd (lightning LS w)) = None ->
  exists d,
    fst (lightning LS w) = Val d /\
    let w1 := snd (lightning LS w) in
    let t1 := clock (rtc_datetime w) (rtc_age w1) in
    let t2 := clock (rtc_datetime w) (S (rtc_age w1)) in
    let packet := render (mk_packet (isoformat (localtime t1)) t2
                            (self_gps_lat w) (self_gps_long w) d) in
    fst (collect clock localtime LS w) = Val packet /\
    log (snd (collect clock localtime LS w)) =
      Print (MsgCreated packet) :: TimeRead t2 :: TimeRead t1 :: log w1.
Proof.
  intros Hpending Hgone.
  destruct (lightning_cancelled_run LS w Hpending Hgone) as (d & Hl).
  pose proof (collect_after LS w d _ Hl Hgone) as Hc. cbv zeta in Hc.
  destruct (lightning_same_station LS w) as (R & La & Lo & _).
  rewrite R, La, Lo in Hc. exists d. split; [rewrite Hl; reflexivity|].
  cbv zeta. rewrite Hc. split; reflexivity.
Qed.

(** X9. [collect] itself has no handler: a Ctrl-C that arrives after the wait
    has returned, at one of the two clock reads or at the print, ends
    [collect] with [KeyboardInterrupt] and no packet. *)
Theorem collect_raises_after_wait LS w d w1 n :
  lightning LS w = (Val d, w1) ->
  sigint w1 = Some n ->
  (steps w1 <= n < steps w1 + 3)%nat ->
  fst (collect clock localtime LS w) = Raise KeyboardInterrupt.
Proof.
  intros Hl Hs Hn. unfold collect. rewrite (bind_val _ _ _ _ _ Hl).
  unfold timestamp, time_time, op, interruptible, bind, modify, get, ret.
  rewrite Hs. destruct (Nat.eqb_spec n (steps w1)) as [|N0]; [reflexivity|].
  cbn. rewrite Hs. destruct (Nat.eqb_spec n (S (steps w1))) as [|N1]; [reflexivity|].
  cbn. rewrite Hs. destruct (Nat.eqb_spec n (S (S (steps w1)))) as [|N2]; [reflexivity|].
  lia.
Qed.

Lemma time_time_same_station w : same_station w (snd (time_time clock w)).
Proof. apply Respects_time_time; intros; repeat split. Qed.

(** The coordinates in a packet are the stored ones, as they were when
    [collect] was called. *)
Lemma collect_line_fields LS w line w' :
  collect clock localtime LS w = (Val line, w') ->
  exists ts e d,
    fst (lightning LS w) = Val d /\
    line = render (mk_packet ts e (self_gps_lat w) (self_gps_long w) d).
Proof.
  unfold collect. intros H.
  apply bind_val_inv in H. destruct H as (stk & w1 & Hl & H).
  apply bind_val_inv in H. destruct H as (t_stmp & w2 & Hts & H).
  apply bind_val_inv in H. destruct H as (t_int & w3 & Ht & H).
  rewrite !bind_get in H.
  apply bind_val_inv in H. destruct H as ([] & w4 & _ & H).
  injection H as <- _.
  assert (S1 : same_station w w1).
  { pose proof (lightning_same_station LS w) as S. now rewrite Hl in S. }
  assert (Htime : forall (v : world coord) t v',
             time_time clock v = (Val t, v') -> same_station v v').
  { intros v t v' E. pose proof (time_time_same_station v) as S. now rewrite E in S. }
  assert (S2 : same_station w1 w2).
  { unfold timestamp in Hts. apply bind_val_inv in Hts.
    destruct Hts as (t & w5 & E & Hts). injection Hts as _ <-. eapply Htime; eauto. }
  assert (S3 : same_station w2 w3) by (eapply Htime; eauto).
  destruct (same_station_trans _ _ _ S1 (same_station_trans _ _ _ S2 S3))
    as (_ & La & Lo & _).
  rewrite La, Lo. exists t_stmp, t_int, stk.
  split; [now rewrite Hl|reflexivity].
Qed.

(** ** [__init__]: the positioning part *)

Variable NAME : string.

Lemma init_positioning_after GPS w fix_ w0 :
  get_GPS_Fix GPS w = (Val fix_, w0) ->
  sigint w0 = None ->
  let t := clock (rtc_datetime w0) (rtc_age w0) in
  init_positioning clock NAME GPS w =
    (Val (filename_of NAME t (fst fix_) (snd fix_)),
     record (GpsEnable false)
       (record (Sleep 500)
          (record (TimeRead t) (with_self_gps (fst fix_) (snd fix_) w0)))).
Proof.
  intros Hg Hs. unfold init_positioning. rewrite (bind_val _ _ _ _ _ Hg).
  unfold time_time. crunch Hs. reflexivity.
Qed.

Lemma gps_while_blocks_at feed : forall fuel w,
  sigint w = None ->
  gps_feed w = feed ->
  (List.length feed < fuel)%nat ->
  waiting w = true ->
  Forall (fun q => fix_ok q = false) feed ->
  while_ fuel gps_cond gps_cycle w =
    (Blocked, record (Print MsgWaitingForFix) (cycles feed w)).
Proof.
  induction feed as [|q feed IH]; intros fuel w Hs Hf Hfuel Hw Hall.
  - destruct fuel as [|fuel]; [cbn in Hfuel; lia|]. rewrite while_step.
    rewrite (bind_val _ _ _ _ _ (gps_cond_run w)), Hw.
    rewrite (bind_blocked _ _ _ _ (gps_cycle_starved w Hs Hf)). reflexivity.
  - destruct fuel as [|fuel]; [cbn in Hfuel; lia|]. rewrite while_step.
    rewrite (bind_val _ _ _ _ _ (gps_cond_run w)), Hw.
    rewrite (bind_val _ _ _ _ _ (gps_cycle_run w q _ Hs Hf)).
    inversion Hall as [|? ? Hq Hall']; subst.
    cbn [cycles]. apply IH; auto.
    + rewrite after_cycle_feed, Hf. reflexivity.
    + cbn [List.length] in Hfuel. lia.
    + rewrite after_cycle_waiting, Hq. reflexivity.
Qed.

Lemma get_GPS_Fix_blocks_at w :
  sigint w = None ->
  Forall (fun q => fix_ok q = false) (gps_feed w) ->
  get_GPS_Fix true w =
    (Blocked, record (Print MsgWaitingForFix) (cycles (gps_feed w) (gps_entry w))).
Proof.
  intros Hs Hall. rewrite get_GPS_Fix_enters by exact Hs.
  apply bind_blocked. unfold gps_wait. rewrite bind_get.
  apply gps_while_blocks_at;
    [exact Hs|reflexivity|apply Nat.lt_succ_diag_r|apply gps_entry_waiting|exact Hall].
Qed.

(** X10. When the positioning part of [__init__] completes, the receiver is
    switched off, half a second after the file name was formed: this is so
    with positioning enabled, after the fix, and with positioning disabled,
    where the receiver was never switched on and the part cannot block.  With
    positioning enabled the part blocks only inside the fix wait, where
    [get_GPS_Fix] itself blocks: no poll passed the guard, every poll has been
    consumed, and the last command is the print that precedes the next
    [update()]. *)
Theorem init_positioning_powers_down GPS w :
  sigint w = None ->
  match init_positioning clock NAME GPS w with
  | (Val name, w') =>
      gps_power (log w') = Some false /\
      exists t done,
        log w' = GpsEnable false :: Sleep 500 :: TimeRead t :: done ++ log w /\
        (GPS = false -> done = [])
  | (Blocked, w') =>
      GPS = true /\
      get_GPS_Fix true w = (Blocked, w') /\
      Forall (fun q => has_fix q = false \/ tm_year (timestamp_utc q) = 2020) (gps_feed w) /\
      gps_feed w' = [] /\
      exists done,
        log w' = Print MsgWaitingForFix :: done ++ log w /\
        count is_update done = List.length (gps_feed w) /\
        count is_rtc_write done = 0%nat
  | (Raise _, _) => False
  end.
Proof.
  intros Hs. destruct GPS.
  - destruct (first_fix (gps_feed w)) as [(pre & g & post & Hf & Hpre & Hg)|Hall].
    + pose proof (get_GPS_Fix_returns w pre g post Hs Hf Hpre Hg) as Hr.
      assert (Hs0 : sigint (gps_exit (cycles (pre ++ [g]) (gps_entry w))) = None).
      { cbn. rewrite cycles_sigint. exact Hs. }
      rewrite (init_positioning_after true w _ _ Hr Hs0). cbv zeta.
      split; [reflexivity|].
      destruct (cycles_counts (pre ++ [g]) (gps_entry w)) as (d & L & _).
      eexists. exists (RtcWrite (fix_time g) :: Print MsgGotFix :: d ++
                       [GpsCommand "PMTK220,1000";
                        GpsCommand "PMTK314,0,1,0,1,0,0,0,0,0,0,0,0,0,0,0,0,0,0,0";
                        GpsOpen; GpsEnable true]).
      split; [|discriminate].
      cbn. rewrite L, cycles_last. cbn. now rewrite <- app_assoc.
    + pose proof (get_GPS_Fix_blocks_at w Hs Hall) as Hb.
      unfold init_positioning. rewrite (bind_blocked _ _ _ _ Hb).
      split; [reflexivity|]. split; [exact Hb|].
      split; [revert Hall; apply Forall_impl; intros q; apply fix_ok_false|].
      split.
      { cbn. apply cycles_feed. cbn. now rewrite app_nil_r. }
      destruct (cycles_counts (gps_feed w) (gps_entry w)) as (d & L & U & _ & W).
      exists (d ++ [GpsCommand "PMTK220,1000";
                    GpsCommand "PMTK314,0,1,0,1,0,0,0,0,0,0,0,0,0,0,0,0,0,0,0";
                    GpsOpen; GpsEnable true]).
      rewrite !count_app, U, W. repeat split; try (cbn; lia).
      cbn. rewrite L. cbn. now rewrite <- app_assoc.
  - rewrite (init_positioning_after false w _ w eq_refl Hs). cbv zeta.
    split; [reflexivity|]. eexists. exists []. split; [reflexivity|auto].
Qed.

Lemma op_same_station a w : same_station w (snd (op a w)).
Proof. apply Respects_op; intros; repeat split. Qed.

(** What the positioning part stores, wherever a Ctrl-C may fall. *)
Lemma init_positioning_stores GPS w la lo w0 name w1 :
  get_GPS_Fix GPS w = (Val (la, lo), w0) ->
  init_positioning clock NAME GPS w = (Val name, w1) ->
  self_gps_lat w1 = la /\ self_gps_long w1 = lo.
Proof.
  intros Hg H. unfold init_positioning in H.
  rewrite (bind_val _ _ _ _ _ Hg) in H. rewrite bind_modify in H.
  apply bind_val_inv in H. destruct H as (t & w2 & Ht & H).
  rewrite !bind_get in H.
  apply bind_val_inv in H. destruct H as ([] & w3 & H3 & H).
  apply bind_val_inv in H. destruct H as ([] & w4 & H4 & H).
  injection H as _ <-.
  pose proof (time_time_same_station (with_self_gps la lo w0)) as S2.
  cbn [fst snd] in Ht. rewrite Ht in S2.
  pose proof (op_same_station (Sleep 500) w2) as S3. rewrite H3 in S3.
  pose proof (op_same_station (GpsEnable false) w3) as S4. rewrite H4 in S4.
  destruct (same_station_trans _ _ _ S2 (same_station_trans _ _ _ S3 S4))
    as (_ & La & Lo & _).
  cbn in La, Lo. auto.
Qed.

Lemma after_collects_same_station LS n : forall w,
  same_station w (after_collects clock localtime LS n w).
Proof.
  induction n as [|n IH]; intros w; cbn [after_collects].
  - apply same_station_refl.
  - eapply same_station_trans; [apply collect_same_station|apply IH].
Qed.

(** X11. The coordinate fields of every packet are the pair that
    [get_GPS_Fix] returned at start-up: the positioning part of [__init__]
    stores it, and however many calls of [collect] have gone by since, and
    however each of them ended, wherever a Ctrl-C fell, a [collect] that
    returns a packet renders that pair, together with the value its own
    [lightning] returned.  With positioning disabled the pair is the
    sentinel (-1, -1). *)
Theorem packets_carry_init_coordinates GPS LS w la lo w0 name w1 n line w2 :
  get_GPS_Fix GPS w = (Val (la, lo), w0) ->
  init_positioning clock NAME GPS w = (Val name, w1) ->
  collect clock localtime LS (after_collects clock localtime LS n w1) = (Val line, w2) ->
  (GPS = false -> la = coord_of_int (-1) /\ lo = coord_of_int (-1)) /\
  exists ts e d,
    fst (lightning LS (after_collects clock localtime LS n w1)) = Val d /\
    line = render (mk_packet ts e la lo d).
Proof.
  intros Hg Hi H. split.
  - intros ->. cbn in Hg. injection Hg as <- <- _. auto.
  - destruct (init_positioning_stores GPS w la lo w0 name w1 Hg Hi) as (La & Lo).
    destruct (after_collects_same_station LS n w1) as (_ & La' & Lo' & _).
    destruct (collect_line_fields LS _ line w2 H) as (ts & e & d & Hd & Hline).
    exists ts, e, d. split; [exact Hd|]. rewrite Hline, La', Lo', La, Lo. reflexivity.
Qed.

End Runs.

(** * The claims on the simulated node *)

(** Scenario B: one NOISE pass is absorbed, then the disturber ends the wait
    with its own distance. *)
Example lightning_scenario_B :
  let run := lightning true (waiting_node scenario_B None) in
  fst run = Val 4 /\
  trace (snd run) =
    [ReadPin false; ReadPin false;
     ReadPin true; ReadInterruptRegister NOISE; ReadDistance 10; ReadEnergy 3;
     Print MsgNoise; ClearStatistics; Sleep 500; SetLed false;
     ReadPin false;
     ReadPin true; ReadInterruptRegister DISTURBER; ReadDistance 4; ReadEnergy 1000;
     Print (MsgDisturber 1 4); ClearStatistics].
Proof. intro run. split; vm_compute; reflexivity. Qed.

(** Scenario C: a strike switches the indicator on before the call returns. *)
Example lightning_scenario_C :
  let run := lightning true (waiting_node scenario_C None) in
  fst run = Val 1 /\
  trace (snd run) =
    [ReadPin true; ReadInterruptRegister LIGHTNING; ReadDistance 1; ReadEnergy 5000;
     SetLed true; Print (MsgLightning 1); ClearStatistics].
Proof. intro run. split; vm_compute; reflexivity. Qed.

(** Scenario A: with the detector disabled the packet carries distance -1,
    once the pin has gone high. *)
Example collect_scenario_A :
  fst (collect sim_clock sim_localtime false (waiting_node [PinHigh (mk_readout 0 0 0)] None))
  = Val "2000-01-01T00:00:01,2,-1,-1,-1"%string.
Proof. vm_compute. reflexivity. Qed.

Lemma get_GPS_Fix_waits_for_valid_fix_witness :
  let w := sim_world scenario_D [] None in
  sigint w = None /\
  match get_GPS_Fix true w with
  | (Val (lat, long), w') =>
      exists pre g post,
        gps_feed w = pre ++ g :: post /\
        Forall (fun q => has_fix q = false \/ tm_year (timestamp_utc q) = 2020) pre /\
        has_fix g = true /\ tm_year (timestamp_utc g) <> 2020 /\
        gps_module w' = g /\ gps_feed w' = post /\
        lat = latitude g /\ long = longitude g
  | (Blocked, _) =>
      Forall (fun q => has_fix q = false \/ tm_year (timestamp_utc q) = 2020) (gps_feed w)
  | (Raise _, _) => False
  end.
Proof.
  intro w. split; [reflexivity|].
  apply (get_GPS_Fix_waits_for_valid_fix w). reflexivity.
Defined.

Lemma get_GPS_Fix_scenario_D_witness :
  let w := sim_world scenario_D [] None in
  exists w' done,
    get_GPS_Fix true w = (Val (29, -95), w') /\
    log w' = done ++ log w /\
    filter is_update (rev done) =
      [GpsUpdate true 2020; GpsUpdate true 2020; GpsUpdate true 2020; GpsUpdate true 2024] /\
    count is_sleep done = 4%nat /\
    gps_feed w' = [].
Proof.
  intro w.
  apply (get_GPS_Fix_scenario_D w
           (poll true 2020 0 0) (poll true 2020 0 0) (poll true 2020 0 0)
           (poll true 2024 29 (-95)) []); reflexivity.
Defined.

Lemma lightning_returns_at_first_terminal_cause_witness :
  let w := waiting_node scenario_B None in
  sigint w = None /\
  exists done consumed,
    log (snd (lightning true w)) = done ++ log w /\
    irq_feed w = consumed ++ irq_feed (snd (lightning true w)) /\
    filter is_register_read (rev done) = register_reads consumed /\
    count is_clear done = List.length (filter caused consumed) /\
    clears_follow false (rev done) = true /\
    match fst (lightning true w) with
    | Val d =>
        exists pre r post,
          irq_feed w = pre ++ PinHigh r :: post /\
          consumed = pre ++ [PinHigh r] /\
          Forall (fun u => terminal u = false) pre /\
          (interrupt_register r = DISTURBER \/ interrupt_register r = LIGHTNING) /\
          irq_feed (snd (lightning true w)) = post /\
          d = distance_to_storm r
    | Blocked =>
        consumed = irq_feed w /\
        Forall (fun u => terminal u = false) (irq_feed w)
    | Raise _ => False
    end.
Proof.
  intro w. split; [reflexivity|].
  apply (lightning_returns_at_first_terminal_cause w). reflexivity.
Defined.

Lemma lightning_disturber_distance_witness :
  fst (lightning true (waiting_node scenario_B None)) = Val 4.
Proof.
  apply (lightning_disturber_distance (waiting_node scenario_B None)
           [PinLow; PinLow; PinHigh (mk_readout NOISE 10 3); PinLow]
           (mk_readout DISTURBER 4 1000) []).
  - reflexivity.
  - reflexivity.
  - repeat constructor.
  - reflexivity.
Defined.

Lemma lightning_unknown_cause_witness :
  let r := mk_readout 0 63 0 in
  let w := waiting_node [PinHigh r; PinLow] None in
  exists w1,
    lightning_pass true w = (Val Continue, w1) /\
    log w1 = [SetLed false; Sleep 500; ReadEnergy 0; ReadDistance 63;
              ReadInterruptRegister 0; ReadPin true] ++ log w /\
    irq_feed w1 = [PinLow] /\
    lightning_loop true w = lightning_loop true w1.
Proof.
  intros r w. apply (lightning_unknown_cause w r [PinLow]).
  - reflexivity.
  - reflexivity.
  - discriminate.
  - discriminate.
  - discriminate.
Defined.

Lemma lightning_disabled_waits_for_pin_witness :
  let w := waiting_node [PinLow; PinLow; PinHigh (mk_readout 0 0 0); PinLow] None in
  sigint w = None /\
  match lightning false w with
  | (Val d, w') =>
      d = -1 /\
      exists n r post,
        irq_feed w = repeat PinLow n ++ PinHigh r :: post /\
        irq_feed w' = post /\
        log w' = ReadPin true :: repeat (ReadPin false) n ++ log w
  | (Blocked, w') =>
      exists n, irq_feed w = repeat PinLow n /\ log w' = repeat (ReadPin false) n ++ log w
  | (Raise _, _) => False
  end.
Proof.
  intro w. split; [reflexivity|].
  apply (lightning_disabled_waits_for_pin w). reflexivity.
Defined.

(** With the detector disabled and the pin low, [lightning] does not return:
    after three looks at the pin it is still polling. *)
Lemma lightning_disabled_blocks_while_pin_low :
  let w := waiting_node [PinLow; PinLow; PinLow] None in
  fst (lightning false w) = Blocked /\
  fst (lightning false w) <> Val (-1) /\
  trace (snd (lightning false w)) = [ReadPin false; ReadPin false; ReadPin false].
Proof.
  intro w. split; [vm_compute; reflexivity|]. split; [discriminate|].
  vm_compute. reflexivity.
Qed.

Lemma lightning_cancelled_witness :
  let w := waiting_node [PinLow; PinLow; PinLow] (Some 2%nat) in
  sigint w <> None /\
  sigint (snd (lightning true w)) = None /\
  exists d,
    fst (lightning true w) = Val d /\
    forall done,
      log (snd (lightning true w)) = done ++ log w ->
      count is_distance_read done = 0%nat ->
      d = -1.
Proof.
  intro w. split; [discriminate|]. split; [reflexivity|].
  apply (lightning_cancelled true w); [discriminate|reflexivity].
Defined.

(** A Ctrl-C that arrives in the settle sleep after a NOISE pass: the call
    returns the distance read in that pass, 10, not -1. *)
Lemma lightning_cancelled_after_noise_returns_readout :
  let w := waiting_node [PinHigh (mk_readout NOISE 10 3)] (Some 6%nat) in
  fst (lightning true w) = Val 10 /\
  fst (lightning true w) <> Val (-1) /\
  sigint (snd (lightning true w)) = None /\
  trace (snd (lightning true w)) =
    [ReadPin true; ReadInterruptRegister NOISE; ReadDistance 10; ReadEnergy 3;
     Print MsgNoise; ClearStatistics].
Proof.
  intro w. split; [vm_compute; reflexivity|]. split; [discriminate|].
  split; vm_compute; reflexivity.
Qed.

Lemma collect_packet_witness :
  let w := waiting_node scenario_B None in
  exists w1 w2 done,
    lightning true w = (Val 4, w1) /\
    log w1 = ClearStatistics :: done ++ log w /\
    rtc_datetime w1 = rtc_datetime w /\
    (rtc_age w < rtc_age w1)%nat /\
    let t1 := sim_clock (rtc_datetime w1) (rtc_age w1) in
    let t2 := sim_clock (rtc_datetime w1) (S (rtc_age w1)) in
    let packet :=
      String.concat ","
        [isoformat (sim_localtime t1); str_int t2;
         coord_str (self_gps_lat w); coord_str (self_gps_long w); str_int 4] in
    collect sim_clock sim_localtime true w = (Val packet, w2) /\
    log w2 = Print (MsgCreated packet) :: TimeRead t2 :: TimeRead t1 :: log w1.
Proof.
  intro w.
  apply (collect_packet sim_clock sim_localtime w
           [PinLow; PinLow; PinHigh (mk_readout NOISE 10 3); PinLow]
           (mk_readout DISTURBER 4 1000) []).
  - reflexivity.
  - reflexivity.
  - repeat constructor.
  - reflexivity.
Defined.

(** * Beyond the claims, on the simulated node *)

Lemma get_GPS_Fix_cycle_count_witness :
  let w := sim_world scenario_D [] None in
  exists w' done,
    get_GPS_Fix true w = (Val (29, -95), w') /\
    log w' = done ++ log w /\
    count is_update done = 4%nat /\
    count (sleeps_for 1000) done = 4%nat /\
    count is_sleep done = 4%nat.
Proof.
  intro w.
  apply (get_GPS_Fix_cycle_count w
           [poll true 2020 0 0; poll true 2020 0 0; poll true 2020 0 0]
           (poll true 2024 29 (-95)) []).
  - reflexivity.
  - reflexivity.
  - repeat constructor; right; reflexivity.
  - reflexivity.
  - discriminate.
Defined.

Lemma get_GPS_Fix_sets_clock_from_fix_witness :
  let w := sim_world scenario_D [] None in
  let g := poll true 2024 29 (-95) in
  exists w' done,
    get_GPS_Fix true w = (Val (29, -95), w') /\
    rtc_datetime w' = fix_time g /\
    tm_year (rtc_datetime w') = 2024 /\
    tm_year (rtc_datetime w') <> 2020 /\
    tm_isdst (rtc_datetime w') = -1 /\
    log w' = RtcWrite (fix_time g) :: done ++ log w /\
    count is_rtc_write done = 0%nat.
Proof.
  intros w g.
  apply (get_GPS_Fix_sets_clock_from_fix w
           [poll true 2020 0 0; poll true 2020 0 0; poll true 2020 0 0] g []).
  - reflexivity.
  - reflexivity.
  - repeat constructor; right; reflexivity.
  - reflexivity.
  - discriminate.
Defined.

Lemma get_GPS_Fix_propagates_ctrl_c_witness :
  let w := sim_world scenario_D [] (Some 5%nat) in
  fst (get_GPS_Fix true w) = Raise KeyboardInterrupt /\
  rtc_datetime (snd (get_GPS_Fix true w)) = rtc_datetime w.
Proof.
  intro w. apply (get_GPS_Fix_propagates_ctrl_c w).
  - discriminate.
  - vm_compute. reflexivity.
Defined.

Lemma lightning_strike_leaves_indicator_on_witness :
  let w := waiting_node [PinLow; PinHigh (mk_readout NOISE 10 3);
                         PinHigh (mk_readout LIGHTNING 1 5000)] None in
  fst (lightning true w) = Val 1 /\
  indicator (log (snd (lightning true w))) = Some true.
Proof.
  intro w.
  apply (lightning_strike_leaves_indicator_on w
           [PinLow; PinHigh (mk_readout NOISE 10 3)] (mk_readout LIGHTNING 1 5000) []).
  - reflexivity.
  - reflexivity.
  - repeat constructor.
  - reflexivity.
Defined.

Lemma lightning_disturber_number_is_one_witness :
  let w := waiting_node scenario_B None in
  exists done,
    log (snd (lightning true w)) =
      ClearStatistics :: Print (MsgDisturber 1 4) :: done ++ log w.
Proof.
  intro w.
  apply (lightning_disturber_number_is_one w
           [PinLow; PinLow; PinHigh (mk_readout NOISE 10 3); PinLow]
           (mk_readout DISTURBER 4 1000) []).
  - reflexivity.
  - reflexivity.
  - repeat constructor.
  - reflexivity.
Defined.

Lemma lightning_sleeps_once_per_absorbed_interrupt_witness :
  let w := waiting_node scenario_B None in
  exists done,
    log (snd (lightning true w)) = done ++ log w /\
    count (sleeps_for 500) done = 1%nat /\
    count is_sleep done = 1%nat /\
    count is_pin_read done = 5%nat.
Proof.
  intro w.
  apply (lightning_sleeps_once_per_absorbed_interrupt w
           [PinLow; PinLow; PinHigh (mk_readout NOISE 10 3); PinLow]
           (mk_readout DISTURBER 4 1000) []).
  - reflexivity.
  - reflexivity.
  - repeat constructor.
  - reflexivity.
Defined.

Lemma collect_survives_cancelled_wait_witness :
  let w := waiting_node scenario_B (Some 3%nat) in
  exists d,
    fst (lightning true w) = Val d /\
    let w1 := snd (lightning true w) in
    let t1 := sim_clock (rtc_datetime w) (rtc_age w1) in
    let t2 := sim_clock (rtc_datetime w) (S (rtc_age w1)) in
    let packet := render (mk_packet (isoformat (sim_localtime t1)) t2
                            (self_gps_lat w) (self_gps_long w) d) in
    fst (collect sim_clock sim_localtime true w) = Val packet /\
    log (snd (collect sim_clock sim_localtime true w)) =
      Print (MsgCreated packet) :: TimeRead t2 :: TimeRead t1 :: log w1.
Proof.
  intro w. apply (collect_survives_cancelled_wait sim_clock sim_localtime true w).
  - discriminate.
  - vm_compute. reflexivity.
Defined.

Lemma collect_raises_after_wait_witness :
  let w := waiting_node scenario_C (Some 8%nat) in
  fst (collect sim_clock sim_localtime true w) = Raise KeyboardInterrupt.
Proof.
  intro w.
  apply (collect_raises_after_wait sim_clock sim_localtime true w 1
           (snd (lightning true w)) 8).
  - vm_compute. reflexivity.
  - vm_compute. reflexivity.
  - vm_compute. lia.
Defined.

Lemma init_positioning_powers_down_witness :
  let w := sim_world scenario_D [] None in
  match init_positioning sim_clock "node" true w with
  | (Val name, w') =>
      gps_power (log w') = Some false /\
      exists t done,
        log w' = GpsEnable false :: Sleep 500 :: TimeRead t :: done ++ log w /\
        (true = false -> done = [])
  | (Blocked, w') =>
      true = true /\
      get_GPS_Fix true w = (Blocked, w') /\
      Forall (fun q => has_fix q = false \/ tm_year (timestamp_utc q) = 2020) (gps_feed w) /\
      gps_feed w' = [] /\
      exists done,
        log w' = Print MsgWaitingForFix :: done ++ log w /\
        count is_update done = List.length (gps_feed w) /\
        count is_rtc_write done = 0%nat
  | (Raise _, _) => False
  end.
Proof.
  intro w. apply (init_positioning_powers_down sim_clock "node" true w). reflexivity.
Defined.

Lemma packets_carry_init_coordinates_witness :
  let g := mk_gps_state true (mk_struct_time 2024 6 15 12 30 0 2 167 0) 29 (-95) in
  let w := sim_world [g] (scenario_B ++ scenario_C) None in
  let w1 := snd (init_positioning sim_clock "node" true w) in
  let line := "2000-01-01T00:00:31,32,29,-95,1"%string in
  (true = false -> 29 = coord_of_int (-1) /\ -95 = coord_of_int (-1)) /\
  exists ts e d,
    fst (lightning true (after_collects sim_clock sim_localtime true 1 w1)) = Val d /\
    line = render (mk_packet ts e 29 (-95) d).
Proof.
  intros g w w1 line.
  apply (packets_carry_init_coordinates sim_clock sim_localtime "node" true true w
           29 (-95) (snd (get_GPS_Fix true w)) "node_1_(29,-95)"%string w1 1 line
           (snd (collect sim_clock sim_localtime true
                   (after_collects sim_clock sim_localtime true 1 w1)))).
  - vm_compute. reflexivity.
  - vm_compute. reflexivity.
  - vm_compute. reflexivity.
Defined.

Lemma lightning_cancelled_returns_latest_readout_witness :
  let w := waiting_node [PinHigh (mk_readout NOISE 10 3)] (Some 6%nat) in
  exists done,
    log (snd (lightning true w)) = done ++ log w /\
    fst (lightning true w) = Val (latest_distance done (-1)).
Proof.
  intro w. apply (lightning_cancelled_returns_latest_readout true w).
  - discriminate.
  - vm_compute. reflexivity.
Defined.
